(** * tracing-go: the tracer configuration and reporter composition of
      [options.go], embedded and verified.

    The package wires a process-wide OpenTracing tracer from an [Options]
    value.  Everything it calls (the jaeger client, the zipkin transport,
    the OpenTracing global registry, glog) is an external collaborator; the
    embedding keeps those calls observable as a log of [Call]s inside the
    [World], next to the global tracer slot and the tracers allocated so
    far. *)

From Stdlib Require Import ZArith.
From stdpp Require Import base decidable option list strings gmap.

Open Scope string_scope.
Open Scope list_scope.

(** ** Go values the package handles *)

(** Go's [error] interface; a [nil] error is [None : option error].
    [errors.New] and [fmt.Errorf] both yield a value that carries only its
    message. *)
Inductive error : Type :=
  | errors_New (msg : string)
  | fmt_Errorf (msg : string).

Definition Error (e : error) : string :=
  match e with
  | errors_New msg => msg
  | fmt_Errorf msg => msg
  end.

#[global] Instance error_eq_dec : EqDecision error.
Proof. solve_decision. Defined.

(** ** Options (options.go, lines 27-52) *)

Record Options : Type := mkOptions {
  ZipkinURL : string;
  JaegerURL : string;
  LogTraceSpans : bool
}.

(** [s != ""] *)
Definition nonempty (s : string) : bool := bool_decide (s ≠ "").

Definition Validate (o : Options) : option error :=
  if nonempty (JaegerURL o) && nonempty (ZipkinURL o) then
    Some (errors_New "can't have Jaeger and Zipkin outputs active simultaneously")
  else
    None.

Definition TracingEnabled (o : Options) : bool :=
  nonempty (JaegerURL o) || nonempty (ZipkinURL o) || LogTraceSpans o.

(** ** External collaborators, as far as options.go touches them

    None of these lives in the repository.  A backend object is represented
    by what it was built from; what the client library does with it later
    (queues, flush loops, HTTP requests) is not modelled beyond the calls
    listed in [Call]. *)

(** [time.Duration], an int64 count of nanoseconds. *)
Definition time_Duration : Type := Z.
Definition time_Second : time_Duration := 1000000000%Z.

(** [type spanLogger struct{}] (options.go, line 211) *)
Inductive spanLogger : Type := SpanLogger.

(** [zipkin.HTTPOption] and [transport.HTTPOption] values used here. *)
Inductive zipkin_HTTPOption : Type :=
  | zipkin_HTTPLogger (l : spanLogger)
  | zipkin_HTTPTimeout (d : time_Duration)
  | zipkin_HTTPBatchSize (n : Z).

Inductive transport_HTTPOption : Type :=
  | transport_HTTPTimeout (d : time_Duration)
  | transport_HTTPBatchSize (n : Z).

(** [*zipkin.HTTPTransport] and [*transport.HTTPTransport] *)
Record zipkin_HTTPTransport : Type := mkZipkinTransport {
  zipkin_url : string;
  zipkin_options : list zipkin_HTTPOption
}.

Record transport_HTTPTransport : Type := mkHTTPTransport {
  transport_url : string;
  transport_options : list transport_HTTPOption
}.

(** [jaeger.Transport] *)
Inductive jaeger_Transport : Type :=
  | ZipkinSender (t : zipkin_HTTPTransport)
  | HTTPSender (t : transport_HTTPTransport).

(** [jaeger.Reporter]: the remote reporter around a transport, the package's
    own [spanLogger], and the composite reporter. *)
#[warnings="-register-all"]
Inductive jaeger_Reporter : Type :=
  | remoteReporter (sender : jaeger_Transport)
  | logReporter (l : spanLogger)
  | compositeReporter (reporters : list jaeger_Reporter).

(** [*jaeger.Span], reduced to the two methods [spanLogger.Report] reads. *)
Record jaeger_Span : Type := mkSpan {
  OperationName : string;
  span_String : string
}.

(** [jaeger.Sampler] as built by [jaeger.NewConstSampler]. *)
Inductive jaeger_Sampler : Type :=
  | NewConstSampler (sample : bool).

(** OpenTracing's builtin carrier formats. *)
Inductive ot_BuiltinFormat : Type := ot_Binary | ot_TextMap | ot_HTTPHeaders.

(** Propagators: the B3 one this package asks for, and jaeger's own. *)
Inductive Propagator : Type :=
  | ZipkinB3HTTPHeaderPropagator
  | JaegerTextMapPropagator
  | JaegerHTTPHeaderPropagator
  | JaegerBinaryPropagator
  | JaegerTraceContextPropagator
  | JaegerZipkinSpanPropagator.

Definition zp_NewZipkinB3HTTPHeaderPropagator : Propagator :=
  ZipkinB3HTTPHeaderPropagator.

(** [jaeger.TracerOption] *)
Inductive jaeger_TracerOption : Type :=
  | TracerOptions_PoolSpans (b : bool)
  | TracerOptions_Injector (format : ot_BuiltinFormat) (p : Propagator)
  | TracerOptions_Extractor (format : ot_BuiltinFormat) (p : Propagator).

(** The fields of a [*jaeger.Tracer] that [jaeger.NewTracer] receives. *)
Record jaeger_Tracer : Type := mkTracer {
  tracer_serviceName : string;
  tracer_sampler : jaeger_Sampler;
  tracer_reporter : jaeger_Reporter;
  tracer_options : list jaeger_TracerOption
}.

(** [ot.Tracer], an interface value: nil, the empty struct [ot.NoopTracer{}],
    a pointer to a jaeger tracer (its index in the heap of the world), or a
    tracer some other part of the process has put in the slot, known by its
    identity only.  Go's [==] on these is equality of constructors and
    pointers. *)
Inductive ot_Tracer : Type :=
  | nilTracer
  | NoopTracer
  | JaegerTracer (p : nat)
  | OtherTracer (id : nat).

#[global] Instance ot_Tracer_eq_dec : EqDecision ot_Tracer.
Proof. solve_decision. Defined.

#[global] Instance ot_BuiltinFormat_eq_dec : EqDecision ot_BuiltinFormat.
Proof. solve_decision. Defined.

#[global] Instance ot_BuiltinFormat_countable : Countable ot_BuiltinFormat.
Proof.
  refine (inj_countable'
    (λ f, match f with ot_Binary => 0 | ot_TextMap => 1 | ot_HTTPHeaders => 2 end)
    (λ n, match n with 0 => ot_Binary | 1 => ot_TextMap | _ => ot_HTTPHeaders end)
    _).
  by intros [].
Defined.

(** Calls into the collaborators that leave a trace outside the package. *)
Inductive Call : Type :=
  | call_newZipkin (url : string) (opts : list zipkin_HTTPOption)
      (res : zipkin_HTTPTransport + error)
  | call_transport_NewHTTPTransport (url : string)
      (opts : list transport_HTTPOption)
  | call_NewRemoteReporter (sender : jaeger_Transport)
  | call_NewCompositeReporter (reporters : list jaeger_Reporter)
  | call_Tracer_Close (p : nat)
  | call_Transport_Append (sender : jaeger_Transport) (span : jaeger_Span)
  | call_Transport_Close (sender : jaeger_Transport)
  | call_glog_Infof (format : string) (args : list string)
  | call_glog_Error (msg : string).

(** ** The process state *)

Record World : Type := mkWorld {
  globalTracer : ot_Tracer;        (* OpenTracing's global tracer slot *)
  tracers : list jaeger_Tracer;    (* jaeger tracers allocated so far *)
  calls : list Call                (* collaborator calls, oldest first *)
}.

(** A freshly started process: [ot.GlobalTracer()] is [NoopTracer{}]. *)
Definition initialWorld : World :=
  {| globalTracer := NoopTracer; tracers := []; calls := [] |}.

(** ** State passing *)

Definition M (A : Type) : Type := World → A * World.

#[global] Instance M_ret : MRet M := λ A (a : A) w, (a, w).
#[global] Instance M_bind : MBind M :=
  λ A B (f : A → M B) (m : M A) w, let '(a, w1) := m w in f a w1.

(** Appending to the call log. *)
Definition addCalls (l : list Call) (w : World) : World :=
  {| globalTracer := globalTracer w;
     tracers := tracers w;
     calls := calls w ++ l |}.

Definition emit (c : Call) : M unit := λ w, (tt, addCalls [c] w).

(** The calls a computation adds to the log when run from [w]. *)
Definition issued {A : Type} (m : M A) (w : World) : list Call :=
  drop (length (calls w)) (calls (m w).2).

(** [ot.GlobalTracer()] and [ot.SetGlobalTracer(t)] *)
Definition ot_GlobalTracer : M ot_Tracer :=
  λ w, (globalTracer w, w).

Definition ot_SetGlobalTracer (t : ot_Tracer) : M unit :=
  λ w, (tt, {| globalTracer := t;
               tracers := tracers w;
               calls := calls w |}).

(** [glog.Infof] and [glog.Error] *)
Definition glog_Infof (format : string) (args : list string) : M unit :=
  emit (call_glog_Infof format args).

Definition glog_Error (msg : string) : M unit :=
  emit (call_glog_Error msg).

(** [transport.NewHTTPTransport(url, opts...)]: one result, no error. *)
Definition transport_NewHTTPTransport (url : string)
    (opts : list transport_HTTPOption) : M transport_HTTPTransport :=
  emit (call_transport_NewHTTPTransport url opts);;
  mret (mkHTTPTransport url opts).

(** [jaeger.NewRemoteReporter(sender)] *)
Definition jaeger_NewRemoteReporter (sender : jaeger_Transport)
    : M jaeger_Reporter :=
  emit (call_NewRemoteReporter sender);;
  mret (remoteReporter sender).

(** [jaeger.NewCompositeReporter(reporters...)] *)
Definition jaeger_NewCompositeReporter (reporters : list jaeger_Reporter)
    : M jaeger_Reporter :=
  emit (call_NewCompositeReporter reporters);;
  mret (compositeReporter reporters).

(** [jaeger.NewTracer(serviceName, sampler, rep, opts...)] allocates a tracer
    and returns it twice, as the [ot.Tracer] and as its [io.Closer]. *)
Definition jaeger_NewTracer (serviceName : string) (sampler : jaeger_Sampler)
    (rep : jaeger_Reporter) (opts : list jaeger_TracerOption)
    : M (ot_Tracer * option nat) :=
  λ w, let p := length (tracers w) in
       ((JaegerTracer p, Some p),
        {| globalTracer := globalTracer w;
           tracers := tracers w ++ [mkTracer serviceName sampler rep opts];
           calls := calls w |}).

(** ** spanLogger (options.go, lines 211-230) *)

Definition spanLogger_Report (l : spanLogger) (span : jaeger_Span) : M unit :=
  glog_Infof "Reporting span operation: %s span: %s"
             [OperationName span; span_String span].

Definition spanLogger_Close (l : spanLogger) : M unit := mret tt.

Definition spanLogger_Error (l : spanLogger) (msg : string) : M unit :=
  glog_Error msg.

Definition spanLogger_Infof (l : spanLogger) (msg : string)
    (args : list string) : M unit :=
  glog_Infof msg args.

(** ** Reporter methods *)

(** [for _, r := range rs { f(r) }] *)
Definition forRange {A : Type} (f : A → M unit) (rs : list A) : M unit :=
  foldr (λ r k, f r;; k) (mret tt) rs.

(** Modelled from the spec: the remote and composite reporters belong to the
    jaeger client, which is not part of the repository.  [Report] of a
    remote reporter hands the span to its transport; [Report] of the
    composite reporter forwards to each member once, in stable iteration
    order (spec, sections 4.2 and 5).  The log reporter is the package's own
    [spanLogger]. *)
Fixpoint Reporter_Report (r : jaeger_Reporter) (span : jaeger_Span) : M unit :=
  match r with
  | remoteReporter sender => emit (call_Transport_Append sender span)
  | logReporter l => spanLogger_Report l span
  | compositeReporter rs => forRange (λ r, Reporter_Report r span) rs
  end.

(** Modelled from the spec: as for [Report]; [Close] of a remote reporter
    closes its transport, [Close] of the composite reporter closes every
    member in the same order. *)
Fixpoint Reporter_Close (r : jaeger_Reporter) : M unit :=
  match r with
  | remoteReporter sender => emit (call_Transport_Close sender)
  | logReporter l => spanLogger_Close l
  | compositeReporter rs => forRange Reporter_Close rs
  end.

(** [Close()] of a [*jaeger.Tracer], the closer [jaeger.NewTracer] returns:
    it closes the tracer's reporter. *)
Definition jaeger_Tracer_Close (p : nat) : M unit :=
  emit (call_Tracer_Close p);;
  t ← (λ w, (tracers w !! p, w));
  match t with
  | Some t => Reporter_Close (tracer_reporter t)
  | None => mret tt
  end.

(** ** The configurator (options.go, lines 126-209) *)

(** [type holder struct { closer io.Closer; tracer ot.Tracer }].  The only
    closers the package stores are jaeger tracers, kept by their index; a nil
    [io.Closer] is [None]. *)
Record holder : Type := mkHolder {
  closer : option nat;
  tracer : ot_Tracer
}.

(** [holder{}] *)
Definition holder_zero : holder := {| closer := None; tracer := nilTracer |}.

(** Package variables (lines 131-136). *)
Definition httpTimeout : time_Duration := (5 * time_Second)%Z.
Definition sampler : jaeger_Sampler := NewConstSampler true.
Definition poolSpans : jaeger_TracerOption := TracerOptions_PoolSpans false.
Definition logger : spanLogger := SpanLogger.

(** [type newZipkin func(url, options...)], returning a
    [*zipkin.HTTPTransport] or an [error]: the indirection for testing. *)
Definition newZipkin : Type :=
  string → list zipkin_HTTPOption → zipkin_HTTPTransport + error.

Definition call_nz (nz : newZipkin) (url : string)
    (opts : list zipkin_HTTPOption) : M (zipkin_HTTPTransport + error) :=
  let res := nz url opts in
  emit (call_newZipkin url opts res);;
  mret res.

(** Lines 154-170 of [configure]: the [reporters] slice, filled in the order
    Zipkin, Jaeger, log; or the error of the early [return] at line 159. *)
Definition buildReporters (options : Options) (nz : newZipkin)
    : M (list jaeger_Reporter + error) :=
  let reporters : list jaeger_Reporter := [] in
  built ←
    (if nonempty (ZipkinURL options) then
       res ← call_nz nz (ZipkinURL options)
               [zipkin_HTTPLogger logger; zipkin_HTTPTimeout httpTimeout];
       match res with
       | inr err =>
           mret (inr (fmt_Errorf
                        ("could not build zipkin reporter: " +:+ Error err)))
       | inl trans =>
           rep ← jaeger_NewRemoteReporter (ZipkinSender trans);
           mret (inl (reporters ++ [rep]))
       end
     else mret (inl reporters));
  match built with
  | inr err => mret (inr err)
  | inl reporters =>
      reporters ←
        (if nonempty (JaegerURL options) then
           trans ← transport_NewHTTPTransport (JaegerURL options)
                     [transport_HTTPTimeout httpTimeout];
           rep ← jaeger_NewRemoteReporter (HTTPSender trans);
           mret (reporters ++ [rep])
         else mret reporters);
      mret (inl (if LogTraceSpans options
                 then reporters ++ [logReporter logger]
                 else reporters))
  end.

(** [configure] returns an [io.Closer] (nil or a [holder]) and an [error]
    (nil or not). *)
Definition configure (serviceName : string) (options : Options)
    (nz : newZipkin) : M (option holder * option error) :=
  match Validate options with
  | Some err => mret (None, Some err)
  | None =>
    built ← buildReporters options nz;
    match built with
    | inr err => mret (None, Some err)
    | inl reporters =>
      match reporters with
      | [] =>
          (* len(reporters) == 0: leave the default NoopTracer in place *)
          mret (Some holder_zero, None)
      | rep0 :: rest =>
          rep ← (match rest with
                 | [] => mret rep0        (* len(reporters) == 1 *)
                 | _ :: _ => jaeger_NewCompositeReporter reporters
                 end);
          (* Setup zipkin style tracing *)
          let zipkinPropagator := zp_NewZipkinB3HTTPHeaderPropagator in
          let injector :=
            TracerOptions_Injector ot_HTTPHeaders zipkinPropagator in
          let extractor :=
            TracerOptions_Extractor ot_HTTPHeaders zipkinPropagator in
          let opts := [poolSpans; injector; extractor] in
          '(tracer, closer) ← jaeger_NewTracer serviceName sampler rep opts;
          (* NOTE: global side effect! *)
          ot_SetGlobalTracer tracer;;
          mret (Some {| closer := closer; tracer := tracer |}, None)
      end
    end
  end.

(** [Configure] is [configure] with the production zipkin constructor, which
    lives in the jaeger client and is taken as a parameter. *)
Section Production.

Variable zipkin_NewHTTPTransport : newZipkin.

Definition Configure (serviceName : string) (options : Options)
    : M (option holder * option error) :=
  configure serviceName options zipkin_NewHTTPTransport.

End Production.

(** [func (h holder) Close() error] (lines 199-209) *)
Definition Close (h : holder) : M (option error) :=
  g ← ot_GlobalTracer;
  (if bool_decide (g = tracer h) then ot_SetGlobalTracer NoopTracer
   else mret tt);;
  (match closer h with
   | Some c => jaeger_Tracer_Close c
   | None => mret tt
   end);;
  mret None.

(** ** Calling a method through an interface value

    [tracer.Close()] on an [io.Closer] that is nil has no method to dispatch
    to: the Go runtime panics. *)
Inductive outcome : Type :=
  | Returned (w : World)
  | Exited (msg : string)       (* log.Fatal *)
  | Panicked (msg : string).

Definition nilDereference : string :=
  "invalid memory address or nil pointer dereference".

Definition io_Closer_Close (c : option holder) (w : World) : outcome :=
  match c with
  | None => Panicked nilDereference
  | Some h => Returned (Close h w).2
  end.

(** The usage sample of the package (options.go, lines 98-121, and the
    README), with the viper lookups replaced by the [Options] they yield. *)
Definition setupTracing (zipkin_NewHTTPTransport : newZipkin)
    (tOpts : Options) (w : World) : outcome :=
  match Validate tOpts with
  | Some err => Exited ("Invalid options for tracing: " +:+ Error err)
  | None =>
      if TracingEnabled tOpts then
        let '(tracer, err, w1) :=
          Configure zipkin_NewHTTPTransport "myapp" tOpts w in
        match err with
        | Some err =>
            match io_Closer_Close tracer w1 with
            | Returned _ => Exited ("Failed to configure tracing: " +:+ Error err)
            | stop => stop
            end
        | None =>
            (* defer tracer.Close() *)
            io_Closer_Close tracer w1
        end
      else Returned w
  end.

(** ** What tracer options set *)

(** The keys of a tracer's codec registries: OpenTracing's builtin formats
    and the two formats of the jaeger client itself. *)
Inductive carrierFormat : Type :=
  | builtin (f : ot_BuiltinFormat)
  | jaeger_SpanContextFormat
  | jaeger_ZipkinSpanFormat.

#[global] Instance carrierFormat_eq_dec : EqDecision carrierFormat.
Proof. solve_decision. Defined.

#[global] Instance carrierFormat_countable : Countable carrierFormat.
Proof.
  refine (inj_countable'
    (λ f, match f with
          | builtin ot_Binary => 0
          | builtin ot_TextMap => 1
          | builtin ot_HTTPHeaders => 2
          | jaeger_SpanContextFormat => 3
          | jaeger_ZipkinSpanFormat => 4
          end)
    (λ n, match n with
          | 0 => builtin ot_Binary
          | 1 => builtin ot_TextMap
          | 2 => builtin ot_HTTPHeaders
          | 3 => jaeger_SpanContextFormat
          | _ => jaeger_ZipkinSpanFormat
          end)
    _).
  by intros [[]| |].
Defined.








(** The reporters a reporter hands spans to: the members of a composite, or
    the reporter itself. *)
Definition reporterMembers (r : jaeger_Reporter) : list jaeger_Reporter :=
  match r with
  | compositeReporter rs => rs
  | _ => [r]
  end.

(** ** Test doubles for the zipkin constructor *)

Definition nzOk : newZipkin :=
  λ url opts, inl (mkZipkinTransport url opts).

Definition nzFail : newZipkin :=
  λ url opts, inr (errors_New "unsupported protocol scheme").

(** ** The reporter set in the words of the specification

    Zipkin, then Jaeger, then log; each present when its option is set. *)
Definition reporterSet (o : Options) (nz : newZipkin) : list jaeger_Reporter :=
  (if nonempty (ZipkinURL o) then
     match nz (ZipkinURL o)
              [zipkin_HTTPLogger logger; zipkin_HTTPTimeout httpTimeout] with
     | inl trans => [remoteReporter (ZipkinSender trans)]
     | inr _ => []
     end
   else [])
  ++ (if nonempty (JaegerURL o) then
        [remoteReporter
           (HTTPSender (mkHTTPTransport (JaegerURL o)
                          [transport_HTTPTimeout httpTimeout]))]
      else [])
  ++ (if LogTraceSpans o then [logReporter logger] else []).

(** One reporter is used as it is, several are wrapped. *)
Definition composed (rs : list jaeger_Reporter) : jaeger_Reporter :=
  match rs with
  | [r] => r
  | _ => compositeReporter rs
  end.

(** The cause of a zipkin construction failure, when the constructor is
    reached and fails. *)
Definition zipkinFailure (o : Options) (nz : newZipkin) : option error :=
  if nonempty (ZipkinURL o) then
    match nz (ZipkinURL o)
             [zipkin_HTTPLogger logger; zipkin_HTTPTimeout httpTimeout] with
    | inl _ => None
    | inr cause => Some cause
    end
  else None.

(** The collaborator calls a successful reporter construction makes, in
    order. *)
Definition backendCalls (o : Options) (nz : newZipkin) : list Call :=
  (if nonempty (ZipkinURL o) then
     let opts := [zipkin_HTTPLogger logger; zipkin_HTTPTimeout httpTimeout] in
     match nz (ZipkinURL o) opts with
     | inl trans =>
         [call_newZipkin (ZipkinURL o) opts (inl trans);
          call_NewRemoteReporter (ZipkinSender trans)]
     | inr cause => [call_newZipkin (ZipkinURL o) opts (inr cause)]
     end
   else [])
  ++ (if nonempty (JaegerURL o) then
        let opts := [transport_HTTPTimeout httpTimeout] in
        [call_transport_NewHTTPTransport (JaegerURL o) opts;
         call_NewRemoteReporter
           (HTTPSender (mkHTTPTransport (JaegerURL o) opts))]
      else []).

Definition composeCalls (rs : list jaeger_Reporter) : list Call :=
  match rs with
  | _ :: _ :: _ => [call_NewCompositeReporter rs]
  | _ => []
  end.

(** The options [configure] hands to [jaeger.NewTracer] (line 186). *)
Definition tracerOpts : list jaeger_TracerOption :=
  [poolSpans;
   TracerOptions_Injector ot_HTTPHeaders zp_NewZipkinB3HTTPHeaderPropagator;
   TracerOptions_Extractor ot_HTTPHeaders zp_NewZipkinB3HTTPHeaderPropagator].

(** ** Descriptions of the runs of [configure] and [Close] *)

(** The world after [configure] has built and installed a tracer around
    [rep]. *)
Definition installed (serviceName : string) (rep : jaeger_Reporter)
    (l : list Call) (w : World) : World :=
  {| globalTracer := JaegerTracer (length (tracers w));
     tracers := tracers w ++ [mkTracer serviceName sampler rep tracerOpts];
     calls := calls w ++ l |}.

(** [Validate]'s error. *)
Definition configError : error :=
  errors_New "can't have Jaeger and Zipkin outputs active simultaneously".

(** ** What reporters and handles emit *)

(** The calls [Report] and [Close] of a reporter make, as lists. *)
Fixpoint reportCalls (r : jaeger_Reporter) (span : jaeger_Span) : list Call :=
  match r with
  | remoteReporter sender => [call_Transport_Append sender span]
  | logReporter _ =>
      [call_glog_Infof "Reporting span operation: %s span: %s"
         [OperationName span; span_String span]]
  | compositeReporter rs => flat_map (λ r, reportCalls r span) rs
  end.

Fixpoint closeCalls (r : jaeger_Reporter) : list Call :=
  match r with
  | remoteReporter sender => [call_Transport_Close sender]
  | logReporter _ => []
  | compositeReporter rs => flat_map closeCalls rs
  end.

(** The calls releasing a closer makes: the tracer's own [Close], then its
    reporter's. *)
Definition releaseCalls (c : option nat) (w : World) : list Call :=
  match c with
  | None => []
  | Some p =>
      call_Tracer_Close p ::
      match tracers w !! p with
      | Some t => closeCalls (tracer_reporter t)
      | None => []
      end
  end.

(** While [m] ran from [w], the zipkin constructor was called and returned
    the error [cause]. *)
Definition zipkinFailedDuring {A : Type} (m : M A) (w : World)
    (cause : error) : Prop :=
  ∃ url opts, call_newZipkin url opts (inr cause) ∈ issued m w.

(** The two transport constructors are only ever called with the package's
    URL for that backend and the package's timeout. *)
Definition transportCallOk (o : Options) (c : Call) : Prop :=
  match c with
  | call_newZipkin url opts _ =>
      url = ZipkinURL o
      ∧ opts = [zipkin_HTTPLogger logger; zipkin_HTTPTimeout httpTimeout]
  | call_transport_NewHTTPTransport url opts =>
      url = JaegerURL o ∧ opts = [transport_HTTPTimeout httpTimeout]
  | _ => True
  end.

(** ** Cobra flags (options.go, lines 54-67)

    [cobra.Command] is reduced to its persistent flag set, and the flag set
    to what pflag's [AddFlag] reads and writes: the map from flag name to
    flag and the map from shorthand to flag name.  [AddFlag] panics on a name
    that is already defined, on a shorthand longer than one character and on
    a shorthand that is already taken; an empty shorthand registers
    nothing. *)

Inductive pflag_Value : Type :=
  | pflag_String (s : string)
  | pflag_Bool (b : bool).

Record pflag_Flag : Type := mkFlag {
  flag_Shorthand : string;
  flag_DefValue : pflag_Value;
  flag_Usage : string
}.

Record cobra_Command : Type := mkCommand {
  persistentFlags : gmap string pflag_Flag;
  shorthands : gmap string string
}.

Inductive pflag_panic : Type :=
  | flagRedefined (name : string)
  | shorthandTooLong (name : string)
  | shorthandRedefined (name : string) (usedBy : string).

(** [AddFlag] works on the flag set in place, so what it has written before
    a panic stays written: the result is the command as it is left, and the
    panic if there was one. *)
Definition FlagSet_AddFlag (name : string) (flag : pflag_Flag)
    (cmd : cobra_Command) : cobra_Command * option pflag_panic :=
  match persistentFlags cmd !! name with
  | Some _ => (cmd, Some (flagRedefined name))
  | None =>
      let formal := <[name := flag]> (persistentFlags cmd) in
      let cmd1 := {| persistentFlags := formal; shorthands := shorthands cmd |} in
      if bool_decide (flag_Shorthand flag = "") then (cmd1, None)
      else if bool_decide (1 < String.length (flag_Shorthand flag))%nat then
        (cmd1, Some (shorthandTooLong name))
      else
        match shorthands cmd !! flag_Shorthand flag with
        | Some used => (cmd1, Some (shorthandRedefined name used))
        | None =>
            ({| persistentFlags := formal;
                shorthands := <[flag_Shorthand flag := name]> (shorthands cmd) |},
             None)
        end
  end.

(** [cmd.PersistentFlags().StringP(name, shorthand, value, usage)] and
    [cmd.PersistentFlags().BoolP(name, shorthand, value, usage)]; the pointer
    they return is dropped by the package. *)
Definition PersistentFlags_StringP (name shorthand value usage : string)
    (cmd : cobra_Command) : cobra_Command * option pflag_panic :=
  FlagSet_AddFlag name (mkFlag shorthand (pflag_String value) usage) cmd.

Definition PersistentFlags_BoolP (name shorthand : string) (value : bool)
    (usage : string) (cmd : cobra_Command)
    : cobra_Command * option pflag_panic :=
  FlagSet_AddFlag name (mkFlag shorthand (pflag_Bool value) usage) cmd.

(** Sequencing: a panic ends the run where it is. *)
Definition andThen (r : cobra_Command * option pflag_panic)
    (k : cobra_Command → cobra_Command * option pflag_panic)
    : cobra_Command * option pflag_panic :=
  match r with
  | (cmd, None) => k cmd
  | (cmd, Some p) => (cmd, Some p)
  end.

Definition AttachCobraFlags (cmd : cobra_Command)
    : cobra_Command * option pflag_panic :=
  andThen
    (PersistentFlags_StringP "trace_zipkin_url" "" ""
       "URL of Zipkin collector (example: 'http://zipkin:9411/api/v1/spans')."
       cmd)
    (λ cmd,
       andThen
         (PersistentFlags_StringP "trace_jaeger_url" "" ""
            "URL of Jaeger HTTP collector (example: 'http://jaeger:14268/api/traces?format=jaeger.thrift')."
            cmd)
         (λ cmd,
            PersistentFlags_BoolP "trace_log_spans" "" false
              "Whether or not to log trace spans." cmd)).

(** The names [AttachCobraFlags] defines. *)
Definition tracingFlagNames : list string :=
  ["trace_zipkin_url"; "trace_jaeger_url"; "trace_log_spans"].

(** ** Sequences of calls into the package *)

Inductive Op : Type :=
  | opConfigure (serviceName : string) (options : Options) (nz : newZipkin)
  | opClose (h : holder).

Definition runOp (w : World) (op : Op) : World :=
  match op with
  | opConfigure s o nz => (configure s o nz w).2
  | opClose h => (Close h w).2
  end.

Definition runOps (ops : list Op) (w : World) : World := foldl runOp w ops.

(** The slot holds a tracer, and a jaeger tracer in it is allocated. *)
Definition slotOk (w : World) : Prop :=
  globalTracer w ≠ nilTracer
  ∧ ∀ p, globalTracer w = JaegerTracer p → (p < length (tracers w))%nat.

(** ** Reading the call log *)

Definition remoteSender (c : Call) : option jaeger_Transport :=
  match c with
  | call_NewRemoteReporter sender => Some sender
  | _ => None
  end.

Definition closedTracer (c : Call) : option nat :=
  match c with
  | call_Tracer_Close p => Some p
  | _ => None
  end.

Definition closedSender (c : Call) : option jaeger_Transport :=
  match c with
  | call_Transport_Close sender => Some sender
  | _ => None
  end.

Definition newZipkinArgs (c : Call)
    : option (string * list zipkin_HTTPOption) :=
  match c with
  | call_newZipkin url opts _ => Some (url, opts)
  | _ => None
  end.

Definition httpTransportArgs (c : Call)
    : option (string * list transport_HTTPOption) :=
  match c with
  | call_transport_NewHTTPTransport url opts => Some (url, opts)
  | _ => None
  end.

(** Calls that build a backend object, as opposed to using or closing one. *)
Definition isConstruction (c : Call) : bool :=
  match c with
  | call_newZipkin _ _ _
  | call_transport_NewHTTPTransport _ _
  | call_NewRemoteReporter _
  | call_NewCompositeReporter _ => true
  | _ => false
  end.

(** The log line [spanLogger.Report] writes for a span. *)
Definition logLine (span : jaeger_Span) : Call :=
  call_glog_Infof "Reporting span operation: %s span: %s"
    [OperationName span; span_String span].

(** * Running the embedding *)

Lemma nonempty_true (s : string) : nonempty s = true ↔ s ≠ "".
Proof. unfold nonempty. by rewrite bool_decide_eq_true. Qed.

Lemma nonempty_false (s : string) : nonempty s = false ↔ s = "".
Proof.
  unfold nonempty. rewrite bool_decide_eq_false.
  split; [apply dec_stable | by intros -> ?].
Qed.

Lemma Validate_None_iff (o : Options) :
  Validate o = None ↔ ¬ (ZipkinURL o ≠ "" ∧ JaegerURL o ≠ "").
Proof.
  unfold Validate. rewrite <- !nonempty_true.
  destruct (nonempty (JaegerURL o)), (nonempty (ZipkinURL o)); simpl;
    split; try done; try (intros _ [? ?]; done); intros H; by destruct H.
Qed.

Lemma zipkinFailure_Some_iff (o : Options) (nz : newZipkin) (cause : error) :
  zipkinFailure o nz = Some cause ↔
  ZipkinURL o ≠ ""
  ∧ nz (ZipkinURL o) [zipkin_HTTPLogger logger; zipkin_HTTPTimeout httpTimeout]
    = inr cause.
Proof.
  unfold zipkinFailure. rewrite <- nonempty_true.
  destruct (nonempty (ZipkinURL o)); [|split; [done|by intros [? _]]].
  destruct (nz _ _) as [t|c]; split; try done.
  - by intros [_ ?].
  - by intros [= ->].
  - by intros [_ [= ->]].
Qed.

Lemma World_eq (w1 w2 : World) :
  globalTracer w1 = globalTracer w2 →
  tracers w1 = tracers w2 →
  calls w1 = calls w2 →
  w1 = w2.
Proof. destruct w1, w2; simpl; congruence. Qed.

Lemma addCalls_nil (w : World) : addCalls [] w = w.
Proof. apply World_eq; simpl; auto using app_nil_r. Qed.

Lemma addCalls_addCalls (l1 l2 : list Call) (w : World) :
  addCalls l2 (addCalls l1 w) = addCalls (l1 ++ l2) w.
Proof. apply World_eq; simpl; auto using app_assoc. Qed.

Lemma issued_addCalls {A : Type} (m : M A) (w : World) (a : A) (l : list Call) :
  m w = (a, addCalls l w) → issued m w = l.
Proof.
  intros H. unfold issued. rewrite H. simpl.
  by rewrite drop_app_length.
Qed.

Lemma issued_calls {A : Type} (m : M A) (w : World) (l : list Call) :
  calls (m w).2 = calls w ++ l → issued m w = l.
Proof. intros H. unfold issued. rewrite H. by rewrite drop_app_length. Qed.

Ltac run :=
  cbv [configure buildReporters call_nz mbind M_bind mret M_ret emit
       jaeger_NewRemoteReporter transport_NewHTTPTransport
       jaeger_NewCompositeReporter jaeger_NewTracer ot_SetGlobalTracer
       ot_GlobalTracer glog_Infof glog_Error];
  rewrite ?addCalls_addCalls.

Ltac options_cases o nz :=
  destruct o as [z j l];
  unfold Validate, zipkinFailure, reporterSet, backendCalls in *;
  cbn [ZipkinURL JaegerURL LogTraceSpans] in *;
  destruct (nz z [zipkin_HTTPLogger logger; zipkin_HTTPTimeout httpTimeout])
    as [?trans|?cause] eqn:Hnz;
  destruct (nonempty z) eqn:Hz, (nonempty j) eqn:Hj, l;
  cbn [andb orb app] in *.

Lemma buildReporters_ok (o : Options) (nz : newZipkin) (w : World) :
  zipkinFailure o nz = None →
  buildReporters o nz w = (inl (reporterSet o nz), addCalls (backendCalls o nz) w).
Proof.
  intros Hok. unfold buildReporters. options_cases o nz;
    try discriminate; run; cbn [ZipkinURL JaegerURL LogTraceSpans];
    rewrite ?Hz, ?Hj, ?Hnz; run; rewrite ?Hnz; rewrite ?addCalls_nil;
    rewrite ?addCalls_addCalls; reflexivity.
Qed.

Lemma buildReporters_err (o : Options) (nz : newZipkin) (w : World)
    (cause : error) :
  zipkinFailure o nz = Some cause →
  buildReporters o nz w =
    (inr (fmt_Errorf ("could not build zipkin reporter: " +:+ Error cause)),
     addCalls [call_newZipkin (ZipkinURL o)
                 [zipkin_HTTPLogger logger; zipkin_HTTPTimeout httpTimeout]
                 (inr cause)] w).
Proof.
  intros Herr. unfold buildReporters. options_cases o nz;
    try discriminate; injection Herr as ->; run;
    cbn [ZipkinURL JaegerURL LogTraceSpans]; rewrite ?Hz, ?Hnz; run;
    rewrite ?Hnz; reflexivity.
Qed.

Lemma configure_invalid (s : string) (o : Options) (nz : newZipkin)
    (w : World) (e : error) :
  Validate o = Some e → configure s o nz w = (None, Some e, w).
Proof. intros H. unfold configure. by rewrite H. Qed.

Lemma configure_zipkin_err (s : string) (o : Options) (nz : newZipkin)
    (w : World) (cause : error) :
  Validate o = None →
  zipkinFailure o nz = Some cause →
  configure s o nz w =
    (None,
     Some (fmt_Errorf ("could not build zipkin reporter: " +:+ Error cause)),
     addCalls [call_newZipkin (ZipkinURL o)
                 [zipkin_HTTPLogger logger; zipkin_HTTPTimeout httpTimeout]
                 (inr cause)] w).
Proof.
  intros Hv Herr. unfold configure. rewrite Hv.
  unfold mbind, M_bind. by rewrite (buildReporters_err _ _ _ _ Herr).
Qed.

Lemma backendCalls_nil (o : Options) (nz : newZipkin) :
  zipkinFailure o nz = None → reporterSet o nz = [] → backendCalls o nz = [].
Proof. intros Hok Hrs. options_cases o nz; by try discriminate. Qed.

Lemma configure_nothing (s : string) (o : Options) (nz : newZipkin)
    (w : World) :
  Validate o = None →
  zipkinFailure o nz = None →
  reporterSet o nz = [] →
  configure s o nz w = (Some holder_zero, None, w).
Proof.
  intros Hv Hok Hrs. unfold configure. rewrite Hv.
  unfold mbind, M_bind. rewrite (buildReporters_ok _ _ _ Hok), Hrs.
  by rewrite (backendCalls_nil _ _ Hok Hrs), addCalls_nil.
Qed.

Lemma configure_installs (s : string) (o : Options) (nz : newZipkin)
    (w : World) :
  Validate o = None →
  zipkinFailure o nz = None →
  reporterSet o nz ≠ [] →
  configure s o nz w =
    (let p := length (tracers w) in
     (Some {| closer := Some p; tracer := JaegerTracer p |}, None,
      installed s (composed (reporterSet o nz))
        (backendCalls o nz ++ composeCalls (reporterSet o nz)) w)).
Proof.
  intros Hv Hok Hrs. unfold configure. rewrite Hv.
  unfold mbind at 1, M_bind at 1. rewrite (buildReporters_ok _ _ _ Hok).
  destruct (reporterSet o nz) as [|r0 [|r1 rs]]; [done| |];
    run; cbn [composed composeCalls]; rewrite ?app_nil_r;
    (do 2 f_equal); by apply World_eq; simpl; rewrite ?app_assoc.
Qed.

(** Induction over reporters that reaches the members of a composite. *)
Lemma jaeger_Reporter_nested_ind (P : jaeger_Reporter → Prop) :
  (∀ sender, P (remoteReporter sender)) →
  (∀ l, P (logReporter l)) →
  (∀ rs, Forall P rs → P (compositeReporter rs)) →
  ∀ r, P r.
Proof.
  intros Hremote Hlog Hcomposite.
  fix IH 1. intros [sender|l|rs].
  - apply Hremote.
  - apply Hlog.
  - apply Hcomposite. induction rs as [|r rs IHrs]; constructor.
    + apply IH.
    + apply IHrs.
Qed.

Lemma forRange_run {A : Type} (f : A → M unit) (g : A → list Call)
    (rs : list A) (w : World) :
  Forall (λ r, ∀ w, f r w = (tt, addCalls (g r) w)) rs →
  forRange f rs w = (tt, addCalls (flat_map g rs) w).
Proof.
  intros H. revert w. induction H as [|r rs Hr _ IH]; intros w.
  - simpl. by rewrite addCalls_nil.
  - change (forRange f (r :: rs) w)
      with (let '(_, w1) := f r w in forRange f rs w1).
    rewrite Hr, IH. simpl. by rewrite addCalls_addCalls.
Qed.

Lemma Reporter_Report_run (r : jaeger_Reporter) (span : jaeger_Span)
    (w : World) :
  Reporter_Report r span w = (tt, addCalls (reportCalls r span) w).
Proof.
  revert w. induction r as [sender|l|rs IH] using jaeger_Reporter_nested_ind;
    intros w; [reflexivity..|].
  simpl. by apply forRange_run.
Qed.

Lemma Reporter_Close_run (r : jaeger_Reporter) (w : World) :
  Reporter_Close r w = (tt, addCalls (closeCalls r) w).
Proof.
  revert w. induction r as [sender|l|rs IH] using jaeger_Reporter_nested_ind;
    intros w.
  - reflexivity.
  - simpl. by rewrite addCalls_nil.
  - simpl. by apply forRange_run.
Qed.

(** ** Running [Close] *)

Lemma jaeger_Tracer_Close_run (p : nat) (w : World) :
  jaeger_Tracer_Close p w = (tt, addCalls (releaseCalls (Some p) w) w).
Proof.
  unfold jaeger_Tracer_Close. run. simpl.
  destruct (tracers w !! p) as [t|].
  - by rewrite Reporter_Close_run, addCalls_addCalls.
  - done.
Qed.

Lemma Close_run (h : holder) (w : World) :
  Close h w =
    (None,
     addCalls (releaseCalls (closer h) w)
       (if bool_decide (globalTracer w = tracer h)
        then (ot_SetGlobalTracer NoopTracer w).2 else w)).
Proof.
  unfold Close. run.
  destruct (bool_decide (globalTracer w = tracer h));
    (destruct (closer h) as [p|];
      [by rewrite jaeger_Tracer_Close_run | by rewrite addCalls_nil]).
Qed.

(** ** What [configure] leaves in the call log *)

Lemma issued_configure_invalid (s : string) (o : Options) (nz : newZipkin)
    (w : World) (e : error) :
  Validate o = Some e → issued (configure s o nz) w = [].
Proof.
  intros H. apply issued_calls.
  rewrite (configure_invalid _ _ _ _ _ H). simpl. by rewrite app_nil_r.
Qed.

Lemma issued_configure_zipkin_err (s : string) (o : Options) (nz : newZipkin)
    (w : World) (cause : error) :
  Validate o = None →
  zipkinFailure o nz = Some cause →
  issued (configure s o nz) w =
    [call_newZipkin (ZipkinURL o)
       [zipkin_HTTPLogger logger; zipkin_HTTPTimeout httpTimeout] (inr cause)].
Proof.
  intros Hv Herr. apply issued_calls.
  by rewrite (configure_zipkin_err _ _ _ _ _ Hv Herr).
Qed.

Lemma issued_configure_ok (s : string) (o : Options) (nz : newZipkin)
    (w : World) :
  Validate o = None →
  zipkinFailure o nz = None →
  issued (configure s o nz) w =
    backendCalls o nz ++ composeCalls (reporterSet o nz).
Proof.
  intros Hv Hok. apply issued_calls.
  destruct (decide (reporterSet o nz = [])) as [Hrs|Hrs].
  - rewrite (configure_nothing _ _ _ _ Hv Hok Hrs), Hrs.
    by rewrite (backendCalls_nil _ _ Hok Hrs), !app_nil_r.
  - by rewrite (configure_installs _ _ _ _ Hv Hok Hrs).
Qed.

(** A successful construction logs no failed constructor call. *)
Lemma backendCalls_no_failure (o : Options) (nz : newZipkin)
    (url : string) (opts : list zipkin_HTTPOption) (cause : error) :
  zipkinFailure o nz = None →
  call_newZipkin url opts (inr cause)
    ∉ backendCalls o nz ++ composeCalls (reporterSet o nz).
Proof.
  intros Hok Hin. apply elem_of_app in Hin as [Hin|Hin].
  - options_cases o nz; try discriminate;
      repeat (apply elem_of_cons in Hin as [Hin|Hin]; [discriminate|]);
      by apply elem_of_nil in Hin.
  - destruct (reporterSet o nz) as [|r0 [|r1 rs]]; simpl in Hin;
      [by apply elem_of_nil in Hin..|].
    apply elem_of_cons in Hin as [Hin|Hin]; [discriminate|].
    by apply elem_of_nil in Hin.
Qed.

(** ** Scenarios of the specification, run on the embedding *)

(** One zipkin backend: the tracer gets the zipkin reporter as it is, and
    [Close] puts the no-op tracer back and closes the transport. *)
Example scenario_zipkin_only :
  let o := mkOptions "http://zipkin:9411/api/v1/spans" "" false in
  let zipkin := ZipkinSender
                  (mkZipkinTransport "http://zipkin:9411/api/v1/spans"
                     [zipkin_HTTPLogger logger;
                      zipkin_HTTPTimeout httpTimeout]) in
  let h := {| closer := Some 0; tracer := JaegerTracer 0 |} in
  let w := (configure "myapp" o nzOk initialWorld).2 in
  (configure "myapp" o nzOk initialWorld).1 = (Some h, None)
  ∧ globalTracer w = JaegerTracer 0
  ∧ tracer_reporter <$> tracers w !! 0 = Some (remoteReporter zipkin)
  ∧ globalTracer (Close h w).2 = NoopTracer
  ∧ issued (Close h) w = [call_Tracer_Close 0; call_Transport_Close zipkin].
Proof. repeat split. Qed.

(** Span logging only: each reported span is one [glog.Infof] call carrying
    the operation name. *)
Example scenario_log_only :
  let o := mkOptions "" "" true in
  let span := mkSpan "GET /orders" "5f2c:1a:0:1" in
  let w := (configure "myapp" o nzOk initialWorld).2 in
  tracer_reporter <$> tracers w !! 0 = Some (logReporter logger)
  ∧ issued (Reporter_Report (logReporter logger) span) w
    = [call_glog_Infof "Reporting span operation: %s span: %s"
         ["GET /orders"; "5f2c:1a:0:1"]].
Proof. repeat split. Qed.

(** * The claims *)

(** ** Options *)

(** C8: [TracingEnabled] holds exactly when one of the two URLs is non-empty
    or span logging is on.  It is a total function of the options alone: it
    neither reads nor changes the world and has no error result. *)
Theorem TracingEnabled_iff (o : Options) :
  TracingEnabled o = true ↔
  ZipkinURL o ≠ "" ∨ JaegerURL o ≠ "" ∨ LogTraceSpans o = true.
Proof.
  unfold TracingEnabled.
  rewrite !orb_true_iff, !nonempty_true. tauto.
Qed.

Lemma TracingEnabled_true_zipkin (o : Options) :
  nonempty (ZipkinURL o) = true → TracingEnabled o = true.
Proof.
  intros Hz. unfold TracingEnabled. rewrite Hz.
  by destruct (nonempty (JaegerURL o)).
Qed.

(** C1: when both URLs are non-empty, [Validate] returns the configuration
    error and [configure] returns that same error with a nil handle and the
    world exactly as it was: no collaborator call was made, no tracer was
    allocated, the global slot is untouched.  For every other options value
    [Validate] returns nil; being a function of the options alone it has no
    effect on the world. *)
Theorem Validate_conflict (o : Options) :
  (ZipkinURL o ≠ "" ∧ JaegerURL o ≠ "" →
     Validate o = Some configError
     ∧ ∀ s nz w,
         configure s o nz w = (None, Some configError, w)
         ∧ issued (configure s o nz) w = []
         ∧ tracers (configure s o nz w).2 = tracers w
         ∧ globalTracer (configure s o nz w).2 = globalTracer w)
  ∧ (¬ (ZipkinURL o ≠ "" ∧ JaegerURL o ≠ "") → Validate o = None).
Proof.
  split.
  - intros [Hz Hj].
    assert (Hv : Validate o = Some configError).
    { unfold Validate.
      apply nonempty_true in Hz, Hj. by rewrite Hz, Hj. }
    split; [done|]. intros s nz w.
    rewrite (issued_configure_invalid _ _ _ _ _ Hv).
    by rewrite (configure_invalid _ _ _ _ _ Hv).
  - intros Hnot. unfold Validate.
    destruct (nonempty (JaegerURL o)) eqn:Hj; [|done].
    destruct (nonempty (ZipkinURL o)) eqn:Hz; [|done].
    apply nonempty_true in Hz, Hj. tauto.
Qed.

(** Both example URLs of options.go set at once. *)
Lemma Validate_conflict_witness :
  let o := mkOptions "http://zipkin:9411/api/v1/spans"
                     "http://jaeger:14268/api/traces?format=jaeger.thrift"
                     false in
  (ZipkinURL o ≠ "" ∧ JaegerURL o ≠ "")
  ∧ Validate o = Some configError
  ∧ configure "myapp" o nzOk initialWorld = (None, Some configError, initialWorld).
Proof.
  intros o.
  assert (H : ZipkinURL o ≠ "" ∧ JaegerURL o ≠ "") by (split; discriminate).
  split; [exact H|].
  destruct (proj1 (Validate_conflict o) H) as [Hv Hc].
  split; [exact Hv|].
  exact (proj1 (Hc "myapp" nzOk initialWorld)).
Defined.

(** ** Zipkin construction failure *)

Lemma zipkinFailedDuring_inv (s : string) (o : Options) (nz : newZipkin)
    (w : World) (cause : error) :
  zipkinFailedDuring (configure s o nz) w cause →
  Validate o = None ∧ zipkinFailure o nz = Some cause.
Proof.
  intros (url & opts & Hin).
  destruct (Validate o) as [e|] eqn:Hv.
  { rewrite (issued_configure_invalid _ _ _ _ _ Hv) in Hin.
    by apply elem_of_nil in Hin. }
  destruct (zipkinFailure o nz) as [c|] eqn:Hf.
  - rewrite (issued_configure_zipkin_err _ _ _ _ _ Hv Hf) in Hin.
    apply list_elem_of_singleton in Hin. by injection Hin as _ _ ->.
  - rewrite (issued_configure_ok _ _ _ _ Hv Hf) in Hin.
    by apply backendCalls_no_failure in Hin.
Qed.

(** C4: with a non-empty zipkin URL, if the zipkin constructor fails during
    [configure] then [configure] returns a nil handle and an error whose
    text is the fixed prefix followed by the text of the cause; the failed
    constructor call is the only collaborator call of the run (no reporter
    is wrapped or composed), no tracer is allocated and the global slot
    keeps its value. *)
Theorem configure_zipkin_failure (s : string) (o : Options) (nz : newZipkin)
    (w : World) (cause : error) :
  ZipkinURL o ≠ "" →
  zipkinFailedDuring (configure s o nz) w cause →
  (configure s o nz w).1 =
    (None,
     Some (fmt_Errorf ("could not build zipkin reporter: " +:+ Error cause)))
  ∧ issued (configure s o nz) w =
      [call_newZipkin (ZipkinURL o)
         [zipkin_HTTPLogger logger; zipkin_HTTPTimeout httpTimeout]
         (inr cause)]
  ∧ tracers (configure s o nz w).2 = tracers w
  ∧ globalTracer (configure s o nz w).2 = globalTracer w.
Proof.
  intros _ Hfail.
  apply zipkinFailedDuring_inv in Hfail as [Hv Hf].
  rewrite (issued_configure_zipkin_err _ _ _ _ _ Hv Hf).
  by rewrite (configure_zipkin_err _ _ _ _ _ Hv Hf).
Qed.

(** A zipkin configuration whose constructor double fails. *)
Lemma configure_zipkin_failure_witness :
  let o := mkOptions "http://zipkin:9411/api/v1/spans" "" true in
  let cause := errors_New "unsupported protocol scheme" in
  ZipkinURL o ≠ ""
  ∧ zipkinFailedDuring (configure "myapp" o nzFail) initialWorld cause
  ∧ (configure "myapp" o nzFail initialWorld).1 =
      (None,
       Some (fmt_Errorf
               "could not build zipkin reporter: unsupported protocol scheme"))
  ∧ globalTracer (configure "myapp" o nzFail initialWorld).2 = NoopTracer.
Proof.
  intros o cause.
  assert (Hz : ZipkinURL o ≠ "") by discriminate.
  assert (Hf : zipkinFailedDuring (configure "myapp" o nzFail) initialWorld cause).
  { exists (ZipkinURL o),
      [zipkin_HTTPLogger logger; zipkin_HTTPTimeout httpTimeout].
    vm_compute. constructor. }
  split; [exact Hz|]. split; [exact Hf|].
  destruct (configure_zipkin_failure "myapp" o nzFail initialWorld cause Hz Hf)
    as (Hres & _ & _ & Hg).
  split; [exact Hres | exact Hg].
Defined.

(** ** Transport construction *)

Lemma backendCalls_transports (o : Options) (nz : newZipkin) :
  Forall (transportCallOk o) (backendCalls o nz).
Proof.
  options_cases o nz; repeat constructor.
Qed.

Lemma composeCalls_transports (o : Options) (rs : list jaeger_Reporter) :
  Forall (transportCallOk o) (composeCalls rs).
Proof. destruct rs as [|r0 [|r1 rs]]; repeat constructor. Qed.

Lemma issued_configure_transports (s : string) (o : Options) (nz : newZipkin)
    (w : World) :
  Forall (transportCallOk o) (issued (configure s o nz) w).
Proof.
  destruct (Validate o) as [e|] eqn:Hv.
  { rewrite (issued_configure_invalid _ _ _ _ _ Hv). constructor. }
  destruct (zipkinFailure o nz) as [c|] eqn:Hf.
  - rewrite (issued_configure_zipkin_err _ _ _ _ _ Hv Hf).
    repeat constructor.
  - rewrite (issued_configure_ok _ _ _ _ Hv Hf). apply Forall_app.
    split; [apply backendCalls_transports | apply composeCalls_transports].
Qed.

Lemma zipkinFailure_no_url (o : Options) (nz : newZipkin) :
  ZipkinURL o = "" → zipkinFailure o nz = None.
Proof. intros Hz. unfold zipkinFailure. by rewrite Hz. Qed.

Lemma Validate_no_zipkin (o : Options) : ZipkinURL o = "" → Validate o = None.
Proof.
  intros Hz. unfold Validate. rewrite Hz.
  by destruct (nonempty (JaegerURL o)).
Qed.

Lemma configure_ok_result (s : string) (o : Options) (nz : newZipkin)
    (w : World) :
  Validate o = None →
  zipkinFailure o nz = None →
  ∃ h, (configure s o nz w).1 = (Some h, None).
Proof.
  intros Hv Hok.
  destruct (decide (reporterSet o nz = [])) as [Hrs|Hrs].
  - rewrite (configure_nothing _ _ _ _ Hv Hok Hrs). by eexists.
  - rewrite (configure_installs _ _ _ _ Hv Hok Hrs). by eexists.
Qed.

Lemma installed_lookup (s : string) (rep : jaeger_Reporter) (l : list Call)
    (w : World) :
  tracers (installed s rep l w) !! length (tracers w)
  = Some (mkTracer s sampler rep tracerOpts).
Proof. simpl. by rewrite lookup_app_r, Nat.sub_diag. Qed.

Lemma constructor_args (o : Options) (nz : newZipkin) :
  Validate o = None →
  zipkinFailure o nz = None →
  omap newZipkinArgs (backendCalls o nz ++ composeCalls (reporterSet o nz))
  = (if nonempty (ZipkinURL o)
     then [(ZipkinURL o,
            [zipkin_HTTPLogger logger; zipkin_HTTPTimeout httpTimeout])]
     else [])
  ∧ omap httpTransportArgs
      (backendCalls o nz ++ composeCalls (reporterSet o nz))
    = (if nonempty (JaegerURL o)
       then [(JaegerURL o, [transport_HTTPTimeout httpTimeout])]
       else []).
Proof.
  intros Hv Hok. options_cases o nz; try discriminate; split; reflexivity.
Qed.

Lemma reporterMembers_composed (o : Options) (nz : newZipkin) :
  reporterSet o nz ≠ [] →
  reporterMembers (composed (reporterSet o nz)) = reporterSet o nz.
Proof. intros Hne. options_cases o nz; done. Qed.

Lemma zipkin_transport_used (o : Options) (nz : newZipkin)
    (trans : zipkin_HTTPTransport) :
  ZipkinURL o ≠ "" →
  JaegerURL o = "" →
  nz (ZipkinURL o) [zipkin_HTTPLogger logger; zipkin_HTTPTimeout httpTimeout]
  = inl trans →
  zipkinFailure o nz = None
  ∧ reporterSet o nz ≠ []
  ∧ remoteReporter (ZipkinSender trans) ∈ reporterSet o nz.
Proof.
  intros HZ HJ Hres. apply nonempty_true in HZ. apply nonempty_false in HJ.
  unfold zipkinFailure, reporterSet. rewrite HZ, HJ, Hres.
  split; [done|]. split; [by destruct (LogTraceSpans o)|].
  simpl. apply list_elem_of_here.
Qed.

Lemma zipkin_call_issued (s : string) (o : Options) (nz : newZipkin)
    (w : World) :
  ZipkinURL o ≠ "" →
  JaegerURL o = "" →
  call_newZipkin (ZipkinURL o)
    [zipkin_HTTPLogger logger; zipkin_HTTPTimeout httpTimeout]
    (nz (ZipkinURL o)
        [zipkin_HTTPLogger logger; zipkin_HTTPTimeout httpTimeout])
  ∈ issued (configure s o nz) w.
Proof.
  intros HZ HJ.
  assert (Hv : Validate o = None).
  { apply Validate_None_iff. by intros [_ ?]. }
  destruct (zipkinFailure o nz) as [c|] eqn:Hf.
  - rewrite (issued_configure_zipkin_err _ _ _ _ _ Hv Hf).
    apply zipkinFailure_Some_iff in Hf as [_ ->]. apply list_elem_of_here.
  - rewrite (issued_configure_ok _ _ _ _ Hv Hf).
    apply elem_of_app. left. unfold backendCalls.
    apply nonempty_true in HZ. rewrite HZ. cbn zeta.
    unfold zipkinFailure in Hf. rewrite HZ in Hf.
    destruct (nz _ _) as [trans|c]; [|done].
    apply elem_of_app. left. apply list_elem_of_here.
Qed.

Lemma jaeger_transport_used (o : Options) (nz : newZipkin) :
  ZipkinURL o = "" →
  JaegerURL o ≠ "" →
  reporterSet o nz ≠ []
  ∧ remoteReporter
      (HTTPSender (mkHTTPTransport (JaegerURL o)
                     [transport_HTTPTimeout httpTimeout]))
    ∈ reporterSet o nz.
Proof.
  intros HZ HJ. apply nonempty_true in HJ. apply nonempty_false in HZ.
  unfold reporterSet. rewrite HZ, HJ. simpl.
  split; [done|]. apply list_elem_of_here.
Qed.

Lemma configure_new_reporter (s : string) (o : Options) (nz : newZipkin)
    (w : World) (r : jaeger_Reporter) :
  Validate o = None →
  zipkinFailure o nz = None →
  reporterSet o nz ≠ [] →
  r ∈ reporterSet o nz →
  ∃ t, tracers (configure s o nz w).2 !! length (tracers w) = Some t
       ∧ r ∈ reporterMembers (tracer_reporter t).
Proof.
  intros Hv Hf Hne Hin.
  rewrite (configure_installs _ _ _ _ Hv Hf Hne).
  eexists. split; [apply installed_lookup|].
  cbn [tracer_reporter]. by rewrite reporterMembers_composed.
Qed.

(** C6: with an empty zipkin URL [configure] returns a nil error, whatever
    the other options, the constructor double and the world are; when a
    jaeger URL is given the jaeger transport is constructed on the way, once,
    by a constructor that has no error result at all, with the package
    timeout, and that transport is behind a reporter of the tracer that is
    built.  With a zipkin URL (and no jaeger URL) the zipkin constructor is
    called once, with the package logger and timeout, and when it succeeds
    the transport it returned is behind a reporter of the tracer that is
    built.  No call of either transport constructor carries anything else,
    and the package timeout is five seconds. *)
Theorem configure_without_zipkin (s : string) (o : Options) (nz : newZipkin)
    (w : World) :
  (ZipkinURL o = "" →
     (configure s o nz w).1.2 = None
     ∧ (JaegerURL o ≠ "" →
          call_transport_NewHTTPTransport (JaegerURL o)
            [transport_HTTPTimeout httpTimeout]
            ∈ issued (configure s o nz) w
          ∧ omap httpTransportArgs (issued (configure s o nz) w)
            = [(JaegerURL o, [transport_HTTPTimeout httpTimeout])]
          ∧ ∃ t,
              tracers (configure s o nz w).2 !! length (tracers w) = Some t
              ∧ remoteReporter
                  (HTTPSender (mkHTTPTransport (JaegerURL o)
                                 [transport_HTTPTimeout httpTimeout]))
                ∈ reporterMembers (tracer_reporter t)))
  ∧ (ZipkinURL o ≠ "" → JaegerURL o = "" →
       omap newZipkinArgs (issued (configure s o nz) w)
       = [(ZipkinURL o,
           [zipkin_HTTPLogger logger; zipkin_HTTPTimeout httpTimeout])]
       ∧ call_newZipkin (ZipkinURL o)
           [zipkin_HTTPLogger logger; zipkin_HTTPTimeout httpTimeout]
           (nz (ZipkinURL o)
               [zipkin_HTTPLogger logger; zipkin_HTTPTimeout httpTimeout])
         ∈ issued (configure s o nz) w
       ∧ ∀ trans,
           nz (ZipkinURL o)
              [zipkin_HTTPLogger logger; zipkin_HTTPTimeout httpTimeout]
           = inl trans →
           (configure s o nz w).1.2 = None
           ∧ ∃ t,
               tracers (configure s o nz w).2 !! length (tracers w) = Some t
               ∧ remoteReporter (ZipkinSender trans)
                 ∈ reporterMembers (tracer_reporter t))
  ∧ (∀ url opts res,
       call_newZipkin url opts res ∈ issued (configure s o nz) w →
       opts = [zipkin_HTTPLogger logger; zipkin_HTTPTimeout httpTimeout])
  ∧ (∀ url opts,
       call_transport_NewHTTPTransport url opts ∈ issued (configure s o nz) w →
       opts = [transport_HTTPTimeout httpTimeout])
  ∧ (httpTimeout = 5 * time_Second ∧ httpTimeout = 5000000000)%Z.
Proof.
  pose proof (issued_configure_transports s o nz w) as Hall.
  rewrite Forall_forall in Hall.
  split; [|split; [|split; [|split]]].
  - intros Hz.
    pose proof (Validate_no_zipkin _ Hz) as Hv.
    pose proof (zipkinFailure_no_url _ nz Hz) as Hf.
    destruct (configure_ok_result s o nz w Hv Hf) as [h Hh].
    split; [by rewrite Hh|]. intros Hj.
    destruct (jaeger_transport_used o nz Hz Hj) as [Hne Hin].
    split; [|split].
    + rewrite (issued_configure_ok _ _ _ _ Hv Hf).
      apply elem_of_app. left. unfold backendCalls.
      apply nonempty_true in Hj. rewrite Hj, Hz. simpl. by left.
    + destruct (constructor_args o nz Hv Hf) as [_ Hargs].
      rewrite (issued_configure_ok _ _ _ _ Hv Hf), Hargs.
      apply nonempty_true in Hj. by rewrite Hj.
    + by apply configure_new_reporter.
  - intros Hz Hj.
    assert (Hv : Validate o = None).
    { apply Validate_None_iff. by intros [_ ?]. }
    split; [|split].
    + destruct (zipkinFailure o nz) as [c|] eqn:Hf.
      * rewrite (issued_configure_zipkin_err _ _ _ _ _ Hv Hf). done.
      * destruct (constructor_args o nz Hv Hf) as [Hargs _].
        rewrite (issued_configure_ok _ _ _ _ Hv Hf), Hargs.
        apply nonempty_true in Hz. by rewrite Hz.
    + by apply zipkin_call_issued.
    + intros trans Hres.
      destruct (zipkin_transport_used o nz trans Hz Hj Hres)
        as (Hf & Hne & Hin).
      destruct (configure_ok_result s o nz w Hv Hf) as [h Hh].
      split; [by rewrite Hh|]. by apply configure_new_reporter.
  - intros url opts res Hin. by destruct (Hall _ Hin).
  - intros url opts Hin. by destruct (Hall _ Hin).
  - done.
Qed.

(** A jaeger-only configuration with a constructor double that always
    fails, and a zipkin-only configuration with one that works. *)
Lemma configure_without_zipkin_witness :
  let oj := mkOptions ""
              "http://jaeger:14268/api/traces?format=jaeger.thrift" false in
  let oz := mkOptions "http://zipkin:9411/api/v1/spans" "" false in
  let zipkin := mkZipkinTransport "http://zipkin:9411/api/v1/spans"
                  [zipkin_HTTPLogger logger;
                   zipkin_HTTPTimeout 5000000000%Z] in
  ZipkinURL oj = ""
  ∧ JaegerURL oj ≠ ""
  ∧ (configure "myapp" oj nzFail initialWorld).1.2 = None
  ∧ call_transport_NewHTTPTransport (JaegerURL oj)
      [transport_HTTPTimeout httpTimeout]
      ∈ issued (configure "myapp" oj nzFail) initialWorld
  ∧ (ZipkinURL oz ≠ "" ∧ JaegerURL oz = "")
  ∧ nzOk (ZipkinURL oz)
      [zipkin_HTTPLogger logger; zipkin_HTTPTimeout httpTimeout]
    = inl zipkin
  ∧ ∃ t, tracers (configure "myapp" oz nzOk initialWorld).2 !! 0 = Some t
         ∧ remoteReporter (ZipkinSender zipkin)
           ∈ reporterMembers (tracer_reporter t).
Proof.
  intros oj oz zipkin.
  assert (Hz : ZipkinURL oj = "") by reflexivity.
  assert (Hj : JaegerURL oj ≠ "") by discriminate.
  split; [exact Hz|]. split; [exact Hj|].
  destruct (proj1 (configure_without_zipkin "myapp" oj nzFail initialWorld) Hz)
    as [Herr Hcall].
  split; [exact Herr|]. split; [exact (proj1 (Hcall Hj))|].
  assert (Hz' : ZipkinURL oz ≠ "") by discriminate.
  assert (Hj' : JaegerURL oz = "") by reflexivity.
  assert (Hres : nzOk (ZipkinURL oz)
                   [zipkin_HTTPLogger logger; zipkin_HTTPTimeout httpTimeout]
                 = inl zipkin) by reflexivity.
  split; [exact (conj Hz' Hj')|]. split; [exact Hres|].
  destruct (proj1 (proj2 (configure_without_zipkin "myapp" oz nzOk
                            initialWorld)) Hz' Hj')
    as (_ & _ & Hused).
  exact (proj2 (Hused zipkin Hres)).
Defined.

(** ** The tracer that is built *)







(** ** The handle on the error paths *)

Lemma configure_error_cases (s : string) (o : Options) (nz : newZipkin)
    (w : World) :
  (configure s o nz w).1.2 ≠ None →
  (∃ e, Validate o = Some e)
  ∨ (Validate o = None ∧ ∃ cause, zipkinFailure o nz = Some cause).
Proof.
  intros Herr.
  destruct (Validate o) as [e|] eqn:Hv; [left; by eexists|right].
  split; [done|].
  destruct (zipkinFailure o nz) as [c|] eqn:Hf; [by eexists|].
  destruct (configure_ok_result s o nz w Hv Hf) as [h Hh].
  by rewrite Hh in Herr.
Qed.

Lemma configure_error_handle (s : string) (o : Options) (nz : newZipkin)
    (w : World) :
  (configure s o nz w).1.2 ≠ None → (configure s o nz w).1.1 = None.
Proof.
  intros Herr.
  destruct (configure_error_cases s o nz w Herr)
    as [[e Hv]|[Hv [cause Hf]]].
  - by rewrite (configure_invalid _ _ _ _ _ Hv).
  - by rewrite (configure_zipkin_err _ _ _ _ _ Hv Hf).
Qed.

(** C9: whenever [configure] returns a non-nil error the handle it returns
    is nil, so calling [Close] through that handle panics on a nil
    dereference instead of doing nothing; the package's usage sample, which
    does so once validation has passed, ends in that panic. *)
Theorem configure_error_nil_handle (s : string) (o : Options) (nz : newZipkin)
    (w : World) :
  (configure s o nz w).1.2 ≠ None →
  (configure s o nz w).1.1 = None
  ∧ io_Closer_Close (configure s o nz w).1.1 (configure s o nz w).2
    = Panicked nilDereference
  ∧ (Validate o = None → setupTracing nz o w = Panicked nilDereference).
Proof.
  intros Herr.
  pose proof (configure_error_handle s o nz w Herr) as Hnil.
  split; [done|]. split; [by rewrite Hnil|].
  intros Hv.
  destruct (configure_error_cases s o nz w Herr)
    as [[e He]|[_ [cause Hf]]]; [congruence|].
  unfold setupTracing, Configure. rewrite Hv.
  assert (Hen : TracingEnabled o = true).
  { apply TracingEnabled_true_zipkin. unfold zipkinFailure in Hf.
    destruct (nonempty (ZipkinURL o)); [done|discriminate]. }
  rewrite Hen.
  by rewrite (configure_zipkin_err _ _ _ _ _ Hv Hf).
Qed.

(** The usage sample run with a failing zipkin constructor. *)
Lemma configure_error_nil_handle_witness :
  let o := mkOptions "http://zipkin:9411/api/v1/spans" "" false in
  (configure "myapp" o nzFail initialWorld).1.2 ≠ None
  ∧ (configure "myapp" o nzFail initialWorld).1.1 = None
  ∧ setupTracing nzFail o initialWorld = Panicked nilDereference.
Proof.
  intros o.
  assert (Herr : (configure "myapp" o nzFail initialWorld).1.2 ≠ None)
    by discriminate.
  split; [exact Herr|].
  destruct (configure_error_nil_handle "myapp" o nzFail initialWorld Herr)
    as (Hnil & _ & Hsample).
  split; [exact Hnil|]. exact (Hsample eq_refl).
Defined.

(** ** The reporter sequence *)

Lemma buildReporters_inl (o : Options) (nz : newZipkin) (w : World)
    (rs : list jaeger_Reporter) :
  (buildReporters o nz w).1 = inl rs →
  zipkinFailure o nz = None ∧ rs = reporterSet o nz.
Proof.
  intros H. destruct (zipkinFailure o nz) as [c|] eqn:Hf.
  - by rewrite (buildReporters_err _ _ _ _ Hf) in H.
  - rewrite (buildReporters_ok _ _ _ Hf) in H. simpl in H.
    split; congruence.
Qed.

Lemma reporterSet_valid (o : Options) (nz : newZipkin) :
  Validate o = None →
  reporterSet o nz = []
  ∨ (∃ r, reporterSet o nz = [r])
  ∨ (∃ sender, reporterSet o nz = [remoteReporter sender; logReporter logger]).
Proof.
  intros Hv. options_cases o nz; try discriminate; eauto.
Qed.

Lemma issued_Reporter_Report (r : jaeger_Reporter) (span : jaeger_Span)
    (w : World) :
  issued (Reporter_Report r span) w = reportCalls r span.
Proof. eapply issued_addCalls, Reporter_Report_run. Qed.

Lemma issued_Reporter_Close (r : jaeger_Reporter) (w : World) :
  issued (Reporter_Close r) w = closeCalls r.
Proof. eapply issued_addCalls, Reporter_Close_run. Qed.

Lemma flat_map_ext' {A B : Type} (f g : A → list B) (l : list A) :
  (∀ a, f a = g a) → flat_map f l = flat_map g l.
Proof. intros H. induction l as [|a l IH]; simpl; [done|]. by rewrite H, IH. Qed.

Lemma backendCalls_composite (o : Options) (nz : newZipkin)
    (members : list jaeger_Reporter) :
  call_NewCompositeReporter members ∉ backendCalls o nz.
Proof.
  intros Hin. options_cases o nz;
    repeat (apply elem_of_cons in Hin as [Hin|Hin]; [discriminate|]);
    by apply elem_of_nil in Hin.
Qed.

(** C10: for options that pass [Validate], the reporter sequence
    [configure] builds has at most two members, and a composite reporter,
    whenever one is constructed or installed, wraps exactly that sequence:
    a remote reporter for the one URL backend followed by the log
    reporter. *)
Theorem reporters_at_most_two (s : string) (o : Options) (nz : newZipkin)
    (w : World) (rs : list jaeger_Reporter) :
  Validate o = None →
  (buildReporters o nz w).1 = inl rs →
  (length rs ≤ 2)%nat
  ∧ (∀ members,
       call_NewCompositeReporter members ∈ issued (configure s o nz) w →
       members = rs
       ∧ ∃ sender, members = [remoteReporter sender; logReporter logger])
  ∧ (∀ p t members,
       tracers w !! p = None →
       tracers (configure s o nz w).2 !! p = Some t →
       tracer_reporter t = compositeReporter members →
       members = rs
       ∧ ∃ sender, members = [remoteReporter sender; logReporter logger]).
Proof.
  intros Hv Hrs. apply buildReporters_inl in Hrs as [Hf ->].
  pose proof (issued_configure_ok s o nz w Hv Hf) as Hissued.
  pose proof (backendCalls_composite o nz) as Hbackend.
  assert (Htr : ∀ p t, tracers w !! p = None →
                 tracers (configure s o nz w).2 !! p = Some t →
                 reporterSet o nz ≠ []
                 ∧ tracer_reporter t = composed (reporterSet o nz)).
  { intros p t Hold Hnew.
    destruct (decide (reporterSet o nz = [])) as [He|Hne].
    - rewrite (configure_nothing _ _ _ _ Hv Hf He) in Hnew. simpl in Hnew.
      congruence.
    - split; [done|].
      rewrite (configure_installs _ _ _ _ Hv Hf Hne) in Hnew. simpl in Hnew.
      apply lookup_ge_None in Hold. rewrite lookup_app_r in Hnew by done.
      by apply list_lookup_singleton_Some in Hnew as [_ <-]. }
  destruct (reporterSet_valid o nz Hv) as [He|[[r He]|[sender He]]];
    rewrite He in *; (split; [simpl; lia|]); split.
  - intros members Hin. rewrite Hissued, app_nil_r in Hin.
    by apply Hbackend in Hin.
  - intros p t members Hold Hnew Hc.
    by destruct (Htr p t Hold Hnew) as [Hne _].
  - intros members Hin. rewrite Hissued, app_nil_r in Hin.
    by apply Hbackend in Hin.
  - intros p t members Hold Hnew Hc.
    rewrite (proj2 (Htr p t Hold Hnew)) in Hc. simpl in Hc. subst r.
    exfalso. clear -He Hv. options_cases o nz; discriminate.
  - intros members Hin. rewrite Hissued in Hin.
    apply elem_of_app in Hin as [Hin|Hin]; [by apply Hbackend in Hin|].
    apply list_elem_of_singleton in Hin. injection Hin as ->. eauto.
  - intros p t members Hold Hnew Hc.
    rewrite (proj2 (Htr p t Hold Hnew)) in Hc. injection Hc as <-. eauto.
Qed.

(** Zipkin and log together: the composite of two. *)
Lemma reporters_at_most_two_witness :
  let o := mkOptions "http://zipkin:9411/api/v1/spans" "" true in
  let rs := [remoteReporter
               (ZipkinSender
                  (mkZipkinTransport "http://zipkin:9411/api/v1/spans"
                     [zipkin_HTTPLogger logger; zipkin_HTTPTimeout httpTimeout]));
             logReporter logger] in
  Validate o = None
  ∧ (buildReporters o nzOk initialWorld).1 = inl rs
  ∧ (length rs ≤ 2)%nat
  ∧ call_NewCompositeReporter rs ∈ issued (configure "myapp" o nzOk) initialWorld.
Proof.
  intros o rs.
  assert (Hv : Validate o = None) by reflexivity.
  assert (Hrs : (buildReporters o nzOk initialWorld).1 = inl rs) by reflexivity.
  split; [exact Hv|]. split; [exact Hrs|]. split.
  - exact (proj1 (reporters_at_most_two "myapp" o nzOk initialWorld rs Hv Hrs)).
  - vm_compute. do 2 apply list_elem_of_further. apply list_elem_of_here.
Defined.

(** C3: the reporter sequence a successful construction yields is the
    zipkin reporter, then the jaeger reporter, then the log reporter, each
    present when its option asks for it, and the backends are constructed in
    that order.  For valid options [configure] then succeeds: a sequence of
    one member becomes the reporter of the new tracer as it is, with no
    composite constructed; a longer one is wrapped by a single call of the
    composite constructor and the composite becomes the tracer's reporter.
    [Report] and [Close] of the composite issue the calls of each member
    once, member after member in the order of the sequence. *)
Theorem configure_reporter_composition (s : string) (o : Options)
    (nz : newZipkin) (w : World) (rs : list jaeger_Reporter) :
  (buildReporters o nz w).1 = inl rs →
  rs = reporterSet o nz
  ∧ issued (buildReporters o nz) w = backendCalls o nz
  ∧ (Validate o = None →
       (∃ h, (configure s o nz w).1 = (Some h, None)
             ∧ (rs ≠ [] →
                  tracer h = JaegerTracer (length (tracers w))
                  ∧ globalTracer (configure s o nz w).2 = tracer h))
       ∧ (∀ r, rs = [r] →
            tracers (configure s o nz w).2
              = tracers w ++ [mkTracer s sampler r tracerOpts]
            ∧ issued (configure s o nz) w = backendCalls o nz)
       ∧ ((2 ≤ length rs)%nat →
            tracers (configure s o nz w).2
              = tracers w ++ [mkTracer s sampler (compositeReporter rs) tracerOpts]
            ∧ issued (configure s o nz) w
              = backendCalls o nz ++ [call_NewCompositeReporter rs]))
  ∧ (∀ span w0,
       issued (Reporter_Report (compositeReporter rs) span) w0
       = flat_map (λ r, issued (Reporter_Report r span) w0) rs)
  ∧ (∀ w0,
       issued (Reporter_Close (compositeReporter rs)) w0
       = flat_map (λ r, issued (Reporter_Close r) w0) rs).
Proof.
  intros Hrs. apply buildReporters_inl in Hrs as [Hf ->].
  split; [done|]. split.
  { eapply issued_addCalls, buildReporters_ok, Hf. }
  split; [|split].
  - intros Hv.
    pose proof (issued_configure_ok s o nz w Hv Hf) as Hissued.
    destruct (decide (reporterSet o nz = [])) as [He|Hne].
    { rewrite (configure_nothing _ _ _ _ Hv Hf He), He.
      split; [by eexists|]. split; [done|simpl; lia]. }
    pose proof (configure_installs s o nz w Hv Hf Hne) as Hrun.
    split; [rewrite Hrun; by eexists|].
    rewrite Hrun, Hissued. split.
    + intros r ->. simpl. by rewrite app_nil_r.
    + intros Hlen.
      by destruct (reporterSet o nz) as [|r0 [|r1 rs]]; simpl in Hlen; try lia.
  - intros span w0. rewrite issued_Reporter_Report. simpl.
    apply flat_map_ext'. intros r. by rewrite issued_Reporter_Report.
  - intros w0. rewrite issued_Reporter_Close. simpl.
    apply flat_map_ext'. intros r. by rewrite issued_Reporter_Close.
Qed.

(** Zipkin and log together: one span reported through the composite reaches
    the zipkin transport first and the log second. *)
Lemma configure_reporter_composition_witness :
  let o := mkOptions "http://zipkin:9411/api/v1/spans" "" true in
  let zipkin := remoteReporter
                  (ZipkinSender
                     (mkZipkinTransport "http://zipkin:9411/api/v1/spans"
                        [zipkin_HTTPLogger logger;
                         zipkin_HTTPTimeout httpTimeout])) in
  let rs := [zipkin; logReporter logger] in
  let span := mkSpan "GET /orders" "5f2c:1a:0:1" in
  (buildReporters o nzOk initialWorld).1 = inl rs
  ∧ rs = reporterSet o nzOk
  ∧ issued (Reporter_Report (compositeReporter rs) span) initialWorld
    = issued (Reporter_Report zipkin span) initialWorld
      ++ issued (Reporter_Report (logReporter logger) span) initialWorld.
Proof.
  intros o zipkin rs span.
  assert (Hrs : (buildReporters o nzOk initialWorld).1 = inl rs) by reflexivity.
  split; [exact Hrs|].
  destruct (configure_reporter_composition "myapp" o nzOk initialWorld rs Hrs)
    as (Hset & _ & _ & Hreport & _).
  split; [exact Hset|].
  rewrite (Hreport span initialWorld). reflexivity.
Defined.

(** ** Closing a handle *)

Lemma configure_success_cases (s : string) (o : Options) (nz : newZipkin)
    (w : World) (h : holder) :
  (configure s o nz w).1 = (Some h, None) →
  (h = holder_zero ∧ (configure s o nz w).2 = w)
  ∨ (∃ rep l,
       h = {| closer := Some (length (tracers w));
              tracer := JaegerTracer (length (tracers w)) |}
       ∧ (configure s o nz w).2 = installed s rep l w).
Proof.
  intros Hres.
  destruct (Validate o) as [e|] eqn:Hv.
  { by rewrite (configure_invalid _ _ _ _ _ Hv) in Hres. }
  destruct (zipkinFailure o nz) as [c|] eqn:Hf.
  { by rewrite (configure_zipkin_err _ _ _ _ _ Hv Hf) in Hres. }
  destruct (decide (reporterSet o nz = [])) as [He|Hne].
  - left. rewrite (configure_nothing _ _ _ _ Hv Hf He) in Hres |- *.
    simpl in Hres. by injection Hres as <-.
  - right. rewrite (configure_installs _ _ _ _ Hv Hf Hne) in Hres |- *.
    simpl in Hres. injection Hres as <-. by eexists _, _.
Qed.

Lemma Close_globalTracer (h : holder) (w : World) :
  globalTracer (Close h w).2 =
    if bool_decide (globalTracer w = tracer h) then NoopTracer
    else globalTracer w.
Proof. rewrite Close_run. simpl. by case_bool_decide. Qed.

Lemma Close_tracers (h : holder) (w : World) :
  tracers (Close h w).2 = tracers w.
Proof. rewrite Close_run. simpl. by case_bool_decide. Qed.

Lemma issued_Close (h : holder) (w : World) :
  issued (Close h) w = releaseCalls (closer h) w.
Proof.
  apply issued_calls. rewrite Close_run. simpl. by case_bool_decide.
Qed.

(** A handle obtained before a later call of [configure] that installed a
    tracer does not own the tracer in the slot. *)
Lemma later_configure_owns (sA sB : string) (oA oB : Options)
    (nzA nzB : newZipkin) (w : World) (hA hB : holder) :
  (configure sA oA nzA w).1 = (Some hA, None) →
  (configure sB oB nzB (configure sA oA nzA w).2).1 = (Some hB, None) →
  tracer hB ≠ nilTracer →
  globalTracer (configure sB oB nzB (configure sA oA nzA w).2).2 = tracer hB
  ∧ tracer hA ≠ tracer hB
  ∧ tracer hB ≠ NoopTracer.
Proof.
  intros HA HB HnilB.
  apply configure_success_cases in HB as [[-> _]|(repB & lB & -> & ->)];
    [done|].
  split; [done|]. split; [|done].
  apply configure_success_cases in HA as [[-> ->]|(repA & lA & -> & ->)];
    [done|].
  simpl. rewrite length_app. simpl. intros [= Heq]. lia.
Qed.

(** C2: [Close] of any handle sets the global slot to the no-op tracer when
    the slot holds the handle's own tracer and leaves the slot alone
    otherwise; it closes the handle's closer whenever there is one, whatever
    the slot holds; it returns nil.  A second [Close] leaves the slot as the
    first one left it.  After an earlier and a later successful [configure],
    the later one having installed a tracer, [Close] of the earlier handle,
    once or twice, keeps the later tracer in the slot and [Close] of the
    later handle, before or after that, puts the no-op tracer there. *)
Theorem Close_ownership_safe (h : holder) (w : World) :
  (globalTracer w = tracer h → globalTracer (Close h w).2 = NoopTracer)
  ∧ (globalTracer w ≠ tracer h →
       globalTracer (Close h w).2 = globalTracer w)
  ∧ (∀ c, closer h = Some c →
       ∃ l, issued (Close h) w = call_Tracer_Close c :: l)
  ∧ issued (Close h) w = releaseCalls (closer h) w
  ∧ tracers (Close h w).2 = tracers w
  ∧ (Close h w).1 = None
  ∧ globalTracer (Close h (Close h w).2).2 = globalTracer (Close h w).2
  ∧ (∀ sA sB oA oB nzA nzB hA hB,
       let wA := (configure sA oA nzA w).2 in
       let wB := (configure sB oB nzB wA).2 in
       (configure sA oA nzA w).1 = (Some hA, None) →
       (configure sB oB nzB wA).1 = (Some hB, None) →
       tracer hB ≠ nilTracer →
       globalTracer wB = tracer hB
       ∧ globalTracer (Close hA wB).2 = tracer hB
       ∧ globalTracer (Close hA (Close hA wB).2).2 = tracer hB
       ∧ globalTracer (Close hB wB).2 = NoopTracer
       ∧ globalTracer (Close hB (Close hA wB).2).2 = NoopTracer).
Proof.
  split; [|split; [|split; [|split; [|split; [|split; [|split]]]]]].
  - intros Heq. rewrite Close_globalTracer. by rewrite bool_decide_eq_true_2.
  - intros Hne. rewrite Close_globalTracer. by rewrite bool_decide_eq_false_2.
  - intros c Hc. rewrite issued_Close, Hc. simpl. by eexists.
  - apply issued_Close.
  - apply Close_tracers.
  - by rewrite Close_run.
  - rewrite !Close_globalTracer.
    destruct (decide (globalTracer w = tracer h)) as [Heq|Hne].
    + rewrite (bool_decide_eq_true_2 _ Heq). by case_bool_decide.
    + rewrite (bool_decide_eq_false_2 _ Hne).
      by rewrite (bool_decide_eq_false_2 _ Hne).
  - intros sA sB oA oB nzA nzB hA hB wA wB HA HB Hnil.
    destruct (later_configure_owns sA sB oA oB nzA nzB w hA hB HA HB Hnil)
      as (Hg & Hdiff & Hnoop).
    fold wA wB in Hg.
    assert (HgA : globalTracer (Close hA wB).2 = tracer hB).
    { rewrite Close_globalTracer, bool_decide_eq_false_2; congruence. }
    split; [done|]. split; [done|]. split.
    { rewrite Close_globalTracer, bool_decide_eq_false_2; congruence. }
    split; rewrite Close_globalTracer; by rewrite bool_decide_eq_true_2.
Qed.

(** Two configurations in a row, zipkin first and log second. *)
Lemma Close_ownership_safe_witness :
  let oA := mkOptions "http://zipkin:9411/api/v1/spans" "" false in
  let oB := mkOptions "" "" true in
  let hA := {| closer := Some 0; tracer := JaegerTracer 0 |} in
  let hB := {| closer := Some 1; tracer := JaegerTracer 1 |} in
  let wA := (configure "first" oA nzOk initialWorld).2 in
  let wB := (configure "second" oB nzOk wA).2 in
  (configure "first" oA nzOk initialWorld).1 = (Some hA, None)
  ∧ (configure "second" oB nzOk wA).1 = (Some hB, None)
  ∧ tracer hB ≠ nilTracer
  ∧ globalTracer (Close hA wB).2 = JaegerTracer 1
  ∧ globalTracer (Close hB wB).2 = NoopTracer.
Proof.
  intros oA oB hA hB wA wB.
  assert (HA : (configure "first" oA nzOk initialWorld).1 = (Some hA, None))
    by reflexivity.
  assert (HB : (configure "second" oB nzOk wA).1 = (Some hB, None))
    by reflexivity.
  assert (Hnil : tracer hB ≠ nilTracer) by discriminate.
  split; [exact HA|]. split; [exact HB|]. split; [exact Hnil|].
  destruct (Close_ownership_safe hA initialWorld)
    as (_ & _ & _ & _ & _ & _ & _ & Hlater).
  destruct (Hlater "first" "second" oA oB nzOk nzOk hA hB HA HB Hnil)
    as (_ & HcloseA & _ & HcloseB & _).
  split; [exact HcloseA | exact HcloseB].
Defined.

(** ** Nothing enabled *)

(** Against C5 as stated: once a first call has installed a tracer, a second
    call with nothing enabled returns the empty handle and leaves that tracer
    in the global slot; it does not put the no-op tracer there. *)
Lemma configure_disabled_counterexample :
  let o := mkOptions "" "" false in
  let w := (configure "first" (mkOptions "" "" true) nzOk initialWorld).2 in
  (ZipkinURL o = "" ∧ JaegerURL o = "" ∧ LogTraceSpans o = false)
  ∧ globalTracer w = JaegerTracer 0
  ∧ configure "second" o nzOk w = (Some holder_zero, None, w)
  ∧ globalTracer (configure "second" o nzOk w).2 ≠ NoopTracer.
Proof. repeat split; discriminate. Qed.

(** C5, amended: with both URLs empty and span logging off,
    [TracingEnabled] is false and [configure] succeeds without calling any
    collaborator and without touching the world, so the global slot keeps
    what it held (the no-op tracer in a fresh process); the handle returned
    is the empty [holder], and its [Close] returns nil and changes nothing in
    any world whose slot holds a tracer. *)
Theorem configure_disabled (s : string) (o : Options) (nz : newZipkin)
    (w : World) :
  ZipkinURL o = "" →
  JaegerURL o = "" →
  LogTraceSpans o = false →
  TracingEnabled o = false
  ∧ configure s o nz w = (Some holder_zero, None, w)
  ∧ configure s o nz initialWorld = (Some holder_zero, None, initialWorld)
  ∧ globalTracer (configure s o nz initialWorld).2 = NoopTracer
  ∧ (∀ w0, globalTracer w0 ≠ nilTracer →
           Close holder_zero w0 = (None, w0)).
Proof.
  intros Hz Hj Hl.
  assert (Hrun : ∀ w1, configure s o nz w1 = (Some holder_zero, None, w1)).
  { intros w1. apply configure_nothing.
    - by apply Validate_no_zipkin.
    - by apply zipkinFailure_no_url.
    - unfold reporterSet. by rewrite Hz, Hj, Hl. }
  split; [|split; [|split; [|split]]].
  - unfold TracingEnabled. by rewrite Hz, Hj, Hl.
  - apply Hrun.
  - apply Hrun.
  - by rewrite Hrun.
  - intros w0 Hslot. rewrite Close_run. simpl.
    rewrite bool_decide_eq_false_2 by done. by rewrite addCalls_nil.
Qed.

(** The slot of a world holding the nil interface value is the one place
    where [Close] of the empty handle writes. *)
Lemma Close_empty_handle_nil_slot :
  Close holder_zero
    {| globalTracer := nilTracer; tracers := []; calls := [] |}
  = (None, initialWorld).
Proof. reflexivity. Qed.

(** Nothing enabled, in a fresh process. *)
Lemma configure_disabled_witness :
  let o := mkOptions "" "" false in
  (ZipkinURL o = "" ∧ JaegerURL o = "" ∧ LogTraceSpans o = false)
  ∧ TracingEnabled o = false
  ∧ configure "myapp" o nzFail initialWorld
    = (Some holder_zero, None, initialWorld)
  ∧ Close holder_zero initialWorld = (None, initialWorld).
Proof.
  intros o. split; [by repeat split|].
  destruct (configure_disabled "myapp" o nzFail initialWorld
              eq_refl eq_refl eq_refl) as (Hen & Hrun & _ & _ & Hclose).
  split; [exact Hen|]. split; [exact Hrun|].
  apply Hclose. discriminate.
Defined.

(** * Further properties of the package *)

(** ** When [configure] fails and what it returns *)

Lemma configure_success_inv (s : string) (o : Options) (nz : newZipkin)
    (w : World) (h : holder) :
  (configure s o nz w).1 = (Some h, None) →
  Validate o = None ∧ zipkinFailure o nz = None.
Proof.
  intros Hres.
  destruct (Validate o) as [e|] eqn:Hv.
  { by rewrite (configure_invalid _ _ _ _ _ Hv) in Hres. }
  destruct (zipkinFailure o nz) as [c|] eqn:Hf; [|done].
  by rewrite (configure_zipkin_err _ _ _ _ _ Hv Hf) in Hres.
Qed.

Lemma reporterSet_nil_iff (o : Options) (nz : newZipkin) :
  zipkinFailure o nz = None →
  reporterSet o nz = [] ↔ TracingEnabled o = false.
Proof.
  intros Hok. unfold TracingEnabled.
  options_cases o nz; by try discriminate.
Qed.

(** X1: [configure] returns a non-nil error in exactly two situations: both
    URLs are given, or a zipkin URL is given and the zipkin constructor
    returns an error for it.  The service name, the world and span logging
    play no part. *)
Theorem configure_error_iff (s : string) (o : Options) (nz : newZipkin)
    (w : World) :
  (configure s o nz w).1.2 ≠ None ↔
  (ZipkinURL o ≠ "" ∧ JaegerURL o ≠ "")
  ∨ (ZipkinURL o ≠ ""
     ∧ ∃ cause,
         nz (ZipkinURL o)
            [zipkin_HTTPLogger logger; zipkin_HTTPTimeout httpTimeout]
         = inr cause).
Proof.
  split.
  - intros Herr.
    destruct (configure_error_cases s o nz w Herr)
      as [[e Hv]|[_ [cause Hf]]].
    + left. destruct (decide (ZipkinURL o ≠ "" ∧ JaegerURL o ≠ ""))
        as [Hboth|Hnot]; [done|].
      apply Validate_None_iff in Hnot. congruence.
    + right. apply zipkinFailure_Some_iff in Hf as [Hz Hnz]. eauto.
  - intros Hcase.
    destruct (Validate o) as [e|] eqn:Hv.
    { by rewrite (configure_invalid _ _ _ _ _ Hv). }
    destruct Hcase as [Hboth|[Hz [cause Hnz]]].
    { by apply Validate_None_iff in Hv. }
    assert (Hf : zipkinFailure o nz = Some cause)
      by by apply zipkinFailure_Some_iff.
    by rewrite (configure_zipkin_err _ _ _ _ _ Hv Hf).
Qed.

(** X2: of the two results of [configure] exactly one is nil: the handle is
    nil precisely when the error is not, so a caller that saw a nil error
    holds a handle it can close. *)
Theorem configure_handle_xor_error (s : string) (o : Options)
    (nz : newZipkin) (w : World) :
  (configure s o nz w).1.1 = None ↔ (configure s o nz w).1.2 ≠ None.
Proof.
  split; [|apply configure_error_handle].
  intros Hnil Herr.
  destruct (Validate o) as [e|] eqn:Hv.
  { by rewrite (configure_invalid _ _ _ _ _ Hv) in Herr. }
  destruct (zipkinFailure o nz) as [c|] eqn:Hf.
  { by rewrite (configure_zipkin_err _ _ _ _ _ Hv Hf) in Herr. }
  destruct (configure_ok_result s o nz w Hv Hf) as [h Hh].
  by rewrite Hh in Hnil.
Qed.

Lemma configure_enabled_success (s : string) (o : Options) (nz : newZipkin)
    (w : World) (h : holder) :
  (configure s o nz w).1 = (Some h, None) →
  TracingEnabled o = true →
  h = {| closer := Some (length (tracers w));
         tracer := JaegerTracer (length (tracers w)) |}
  ∧ ∃ rep l, (configure s o nz w).2 = installed s rep l w.
Proof.
  intros Hres Hen.
  destruct (configure_success_inv s o nz w h Hres) as [Hv Hf].
  assert (Hne : reporterSet o nz ≠ []).
  { intros He. apply (reporterSet_nil_iff o nz Hf) in He. congruence. }
  rewrite (configure_installs _ _ _ _ Hv Hf Hne) in Hres |- *.
  simpl in *. injection Hres as <-. split; [done|]. by eexists _, _.
Qed.

(** X3: a successful [configure] installs a tracer exactly when
    [TracingEnabled] holds.  Then the handle's tracer and closer are one
    freshly allocated jaeger tracer, bound to the given service name, and
    that tracer is what the global slot holds afterwards, whatever it held
    before; otherwise the handle is empty and the world is untouched. *)
Theorem configure_installs_iff_enabled (s : string) (o : Options)
    (nz : newZipkin) (w : World) (h : holder) :
  (configure s o nz w).1 = (Some h, None) →
  (TracingEnabled o = true →
     let p := length (tracers w) in
     h = {| closer := Some p; tracer := JaegerTracer p |}
     ∧ globalTracer (configure s o nz w).2 = JaegerTracer p
     ∧ tracers w !! p = None
     ∧ ∃ t, tracers (configure s o nz w).2 = tracers w ++ [t]
            ∧ tracer_serviceName t = s)
  ∧ (TracingEnabled o = false →
       h = holder_zero ∧ (configure s o nz w).2 = w).
Proof.
  intros Hres. split; intros Htr.
  - destruct (configure_enabled_success s o nz w h Hres Htr)
      as (-> & rep & l & ->).
    simpl. split; [done|]. split; [done|].
    split; [by apply lookup_ge_None|]. by eexists.
  - destruct (configure_success_inv s o nz w h Hres) as [Hv Hf].
    apply (reporterSet_nil_iff o nz Hf) in Htr.
    rewrite (configure_nothing _ _ _ _ Hv Hf Htr) in Hres |- *.
    simpl in *. by injection Hres as <-.
Qed.

(** A jaeger backend configured over a tracer of another party. *)
Lemma configure_installs_iff_enabled_witness :
  let o := mkOptions ""
             "http://jaeger:14268/api/traces?format=jaeger.thrift" false in
  let w := {| globalTracer := OtherTracer 7; tracers := []; calls := [] |} in
  let h := {| closer := Some 0; tracer := JaegerTracer 0 |} in
  (configure "myapp" o nzOk w).1 = (Some h, None)
  ∧ TracingEnabled o = true
  ∧ globalTracer (configure "myapp" o nzOk w).2 = JaegerTracer 0.
Proof.
  intros o w h.
  assert (Hres : (configure "myapp" o nzOk w).1 = (Some h, None))
    by reflexivity.
  assert (Hen : TracingEnabled o = true) by reflexivity.
  split; [exact Hres|]. split; [exact Hen|].
  destruct (proj1 (configure_installs_iff_enabled "myapp" o nzOk w h Hres) Hen)
    as (_ & Hslot & _).
  exact Hslot.
Defined.

(** ** Invariants of sequences of calls *)

Lemma configure_world_cases (s : string) (o : Options) (nz : newZipkin)
    (w : World) :
  (∃ l, (configure s o nz w).2 = addCalls l w)
  ∨ (∃ rep l, (configure s o nz w).2 = installed s rep l w).
Proof.
  destruct (Validate o) as [e|] eqn:Hv.
  { left. exists []. by rewrite (configure_invalid _ _ _ _ _ Hv), addCalls_nil. }
  destruct (zipkinFailure o nz) as [c|] eqn:Hf.
  { left. rewrite (configure_zipkin_err _ _ _ _ _ Hv Hf). by eexists. }
  destruct (decide (reporterSet o nz = [])) as [Hrs|Hrs].
  - left. exists [].
    by rewrite (configure_nothing _ _ _ _ Hv Hf Hrs), addCalls_nil.
  - right. rewrite (configure_installs _ _ _ _ Hv Hf Hrs). by eexists _, _.
Qed.

Lemma runOp_grows (w : World) (op : Op) :
  tracers w `prefix_of` tracers (runOp w op)
  ∧ calls w `prefix_of` calls (runOp w op).
Proof.
  destruct op as [s o nz|h]; simpl.
  - destruct (configure_world_cases s o nz w) as [[l ->]|(rep & l & ->)];
      simpl; split; by (done || apply prefix_app_r).
  - rewrite Close_run. simpl.
    case_bool_decide; simpl; split; by (done || apply prefix_app_r).
Qed.

Lemma runOp_slotOk (w : World) (op : Op) : slotOk w → slotOk (runOp w op).
Proof.
  intros [Hnil Halloc]. destruct op as [s o nz|h]; simpl.
  - destruct (configure_world_cases s o nz w) as [[l ->]|(rep & l & ->)].
    + done.
    + split; [done|]. simpl. intros p [= <-]. rewrite length_app. simpl. lia.
  - rewrite Close_run. case_bool_decide; [|done].
    split; [done|]. simpl. by intros p.
Qed.

Lemma runOps_grows (ops : list Op) (w : World) :
  tracers w `prefix_of` tracers (runOps ops w)
  ∧ calls w `prefix_of` calls (runOps ops w).
Proof.
  revert w. induction ops as [|op ops IH]; intros w; [done|].
  destruct (runOp_grows w op) as [Ht Hc].
  destruct (IH (runOp w op)) as [Ht' Hc'].
  split; by etrans.
Qed.

(** No sequence of [configure] and [Close] calls, with whatever handles,
    drops or rewrites a tracer that was allocated or an entry of the call
    log: both only grow at the end, and a tracer keeps its index. *)
Theorem runOps_append_only (ops : list Op) (w : World) :
  tracers w `prefix_of` tracers (runOps ops w)
  ∧ calls w `prefix_of` calls (runOps ops w)
  ∧ ∀ p t, tracers w !! p = Some t → tracers (runOps ops w) !! p = Some t.
Proof.
  destruct (runOps_grows ops w) as [Ht Hc].
  split; [done|]. split; [done|].
  intros p t Hp. destruct Ht as [k ->]. by apply lookup_app_l_Some.
Qed.

(** X4: [configure] and [Close] never put the nil interface value into the
    global slot and never leave a jaeger tracer there that is not allocated.
    So in a process that only goes through this package, starting with a
    slot that holds a tracer, [Close] of the empty handle changes nothing at
    any point. *)
Theorem runOps_slot_never_nil (ops : list Op) (w : World) :
  slotOk w →
  slotOk (runOps ops w)
  ∧ Close holder_zero (runOps ops w) = (None, runOps ops w).
Proof.
  intros Hok.
  assert (Hok' : slotOk (runOps ops w)).
  { revert w Hok. induction ops as [|op ops IH]; intros w Hok; [done|].
    apply IH. by apply runOp_slotOk. }
  split; [done|]. rewrite Close_run. simpl.
  rewrite bool_decide_eq_false_2 by apply Hok'. by rewrite addCalls_nil.
Qed.

(** A fresh process that configures zipkin, closes, and configures
    nothing. *)
Lemma runOps_slot_never_nil_witness :
  let ops := [opConfigure "myapp"
                (mkOptions "http://zipkin:9411/api/v1/spans" "" false) nzOk;
              opClose {| closer := Some 0; tracer := JaegerTracer 0 |};
              opConfigure "myapp" (mkOptions "" "" false) nzOk] in
  slotOk initialWorld
  ∧ globalTracer (runOps ops initialWorld) = NoopTracer
  ∧ Close holder_zero (runOps ops initialWorld)
    = (None, runOps ops initialWorld).
Proof.
  intros ops.
  assert (Hok : slotOk initialWorld).
  { split; [discriminate|]. intros p. discriminate. }
  split; [exact Hok|]. split; [reflexivity|].
  exact (proj2 (runOps_slot_never_nil ops initialWorld Hok)).
Defined.

(** X5: whatever calls happen in between, the tracer a later successful
    [configure] installs is different from the tracer of any handle obtained
    earlier, so [Close] of the earlier handle leaves the later tracer in the
    slot. *)
Theorem later_tracer_survives (sA sB : string) (oA oB : Options)
    (nzA nzB : newZipkin) (ops : list Op) (w : World) (hA hB : holder) :
  let wA := (configure sA oA nzA w).2 in
  let wM := runOps ops wA in
  let wB := (configure sB oB nzB wM).2 in
  (configure sA oA nzA w).1 = (Some hA, None) →
  (configure sB oB nzB wM).1 = (Some hB, None) →
  TracingEnabled oB = true →
  tracer hA ≠ tracer hB
  ∧ globalTracer wB = tracer hB
  ∧ globalTracer (Close hA wB).2 = tracer hB.
Proof.
  intros wA wM wB HA HB Hen.
  destruct (configure_enabled_success sB oB nzB wM hB HB Hen)
    as (-> & repB & lB & HwB).
  assert (Hslot : globalTracer wB = JaegerTracer (length (tracers wM))).
  { unfold wB. by rewrite HwB. }
  simpl.
  assert (Hdiff : tracer hA ≠ JaegerTracer (length (tracers wM))).
  { destruct (runOps_grows ops wA) as [[k Hk] _]. fold wM in Hk.
    apply configure_success_cases in HA as [[-> _]|(rep & l & -> & HwA)];
      [done|].
    fold wA in HwA. rewrite Hk, HwA. simpl. rewrite !length_app. simpl.
    intros [= Heq]. lia. }
  split; [done|]. split; [done|].
  rewrite Close_globalTracer, Hslot.
  by rewrite bool_decide_eq_false_2.
Qed.

(** Zipkin first; its handle closed twice and a disabled configuration run
    in between; then a log-only configuration. *)
Lemma later_tracer_survives_witness :
  let oA := mkOptions "http://zipkin:9411/api/v1/spans" "" false in
  let oB := mkOptions "" "" true in
  let hA := {| closer := Some 0; tracer := JaegerTracer 0 |} in
  let hB := {| closer := Some 1; tracer := JaegerTracer 1 |} in
  let ops := [opClose hA; opConfigure "idle" (mkOptions "" "" false) nzOk;
              opClose hA] in
  let wM := runOps ops (configure "first" oA nzOk initialWorld).2 in
  (configure "first" oA nzOk initialWorld).1 = (Some hA, None)
  ∧ (configure "second" oB nzOk wM).1 = (Some hB, None)
  ∧ TracingEnabled oB = true
  ∧ globalTracer (Close hA (configure "second" oB nzOk wM).2).2
    = JaegerTracer 1.
Proof.
  intros oA oB hA hB ops wM.
  assert (HA : (configure "first" oA nzOk initialWorld).1 = (Some hA, None))
    by reflexivity.
  assert (HB : (configure "second" oB nzOk wM).1 = (Some hB, None))
    by reflexivity.
  assert (Hen : TracingEnabled oB = true) by reflexivity.
  split; [exact HA|]. split; [exact HB|]. split; [exact Hen|].
  exact (proj2 (proj2 (later_tracer_survives "first" "second" oA oB nzOk nzOk
                         ops initialWorld hA hB HA HB Hen))).
Defined.

(** X6: [Close] right after a [configure] that installed a tracer puts the
    no-op tracer into the slot; it does not bring back what the slot held
    before the [configure]. *)
Theorem configure_then_Close (s : string) (o : Options) (nz : newZipkin)
    (w : World) (h : holder) :
  (configure s o nz w).1 = (Some h, None) →
  TracingEnabled o = true →
  globalTracer (Close h (configure s o nz w).2).2 = NoopTracer
  ∧ (globalTracer w ≠ NoopTracer →
       globalTracer (Close h (configure s o nz w).2).2 ≠ globalTracer w).
Proof.
  intros Hres Hen.
  destruct (configure_enabled_success s o nz w h Hres Hen)
    as (-> & rep & l & Hw').
  assert (Hslot : globalTracer (configure s o nz w).2
                  = JaegerTracer (length (tracers w))) by by rewrite Hw'.
  assert (Hnoop : globalTracer
                    (Close {| closer := Some (length (tracers w));
                              tracer := JaegerTracer (length (tracers w)) |}
                       (configure s o nz w).2).2 = NoopTracer).
  { rewrite Close_globalTracer, Hslot. by rewrite bool_decide_eq_true_2. }
  split; [done|]. intros Hw. by rewrite Hnoop.
Qed.

(** A log-only configuration over a tracer of another party, then closed. *)
Lemma configure_then_Close_witness :
  let o := mkOptions "" "" true in
  let w := {| globalTracer := OtherTracer 7; tracers := []; calls := [] |} in
  let h := {| closer := Some 0; tracer := JaegerTracer 0 |} in
  (configure "myapp" o nzOk w).1 = (Some h, None)
  ∧ TracingEnabled o = true
  ∧ globalTracer w ≠ NoopTracer
  ∧ globalTracer (Close h (configure "myapp" o nzOk w).2).2 = NoopTracer
  ∧ globalTracer (Close h (configure "myapp" o nzOk w).2).2 ≠ globalTracer w.
Proof.
  intros o w h.
  assert (Hres : (configure "myapp" o nzOk w).1 = (Some h, None))
    by reflexivity.
  assert (Hen : TracingEnabled o = true) by reflexivity.
  assert (Hw : globalTracer w ≠ NoopTracer) by discriminate.
  split; [exact Hres|]. split; [exact Hen|]. split; [exact Hw|].
  destruct (configure_then_Close "myapp" o nzOk w h Hres Hen) as [Hnoop Hnot].
  split; [exact Hnoop | exact (Hnot Hw)].
Defined.

(** ** What is built, used and released *)

Lemma senders_balance (o : Options) (nz : newZipkin) :
  zipkinFailure o nz = None →
  omap closedSender (closeCalls (composed (reporterSet o nz)))
  = omap remoteSender (backendCalls o nz ++ composeCalls (reporterSet o nz)).
Proof. intros Hok. options_cases o nz; by try discriminate. Qed.

(** X7: [Close] of the handle a successful [configure] returned, run in the
    world that [configure] left, closes exactly the transports that were
    wrapped into remote reporters during that [configure], each once and in
    the order they were built; the empty handle closes none. *)
Theorem Close_releases_what_configure_built (s : string) (o : Options)
    (nz : newZipkin) (w : World) (h : holder) :
  (configure s o nz w).1 = (Some h, None) →
  omap closedSender (issued (Close h) (configure s o nz w).2)
  = omap remoteSender (issued (configure s o nz) w).
Proof.
  intros Hres.
  destruct (configure_success_inv s o nz w h Hres) as [Hv Hf].
  rewrite issued_Close, (issued_configure_ok _ _ _ _ Hv Hf).
  rewrite <- (senders_balance o nz Hf).
  destruct (decide (reporterSet o nz = [])) as [He|Hne].
  - rewrite (configure_nothing _ _ _ _ Hv Hf He) in Hres |- *.
    simpl in Hres. injection Hres as <-. by rewrite He.
  - rewrite (configure_installs _ _ _ _ Hv Hf Hne) in Hres |- *.
    simpl in Hres. injection Hres as <-.
    cbn [releaseCalls closer snd]. by rewrite installed_lookup.
Qed.

(** Zipkin and log together: one transport built, the same one closed. *)
Lemma Close_releases_what_configure_built_witness :
  let o := mkOptions "http://zipkin:9411/api/v1/spans" "" true in
  let h := {| closer := Some 0; tracer := JaegerTracer 0 |} in
  let zipkin := ZipkinSender
                  (mkZipkinTransport "http://zipkin:9411/api/v1/spans"
                     [zipkin_HTTPLogger logger;
                      zipkin_HTTPTimeout httpTimeout]) in
  (configure "myapp" o nzOk initialWorld).1 = (Some h, None)
  ∧ omap remoteSender (issued (configure "myapp" o nzOk) initialWorld)
    = [zipkin]
  ∧ omap closedSender
      (issued (Close h) (configure "myapp" o nzOk initialWorld).2)
    = [zipkin].
Proof.
  intros o h zipkin.
  assert (Hres : (configure "myapp" o nzOk initialWorld).1 = (Some h, None))
    by reflexivity.
  split; [exact Hres|]. split; [reflexivity|].
  rewrite (Close_releases_what_configure_built "myapp" o nzOk initialWorld h
             Hres).
  reflexivity.
Defined.

Lemma closeCalls_closedTracer (r : jaeger_Reporter) :
  omap closedTracer (closeCalls r) = [].
Proof.
  induction r as [sender|l|rs IH] using jaeger_Reporter_nested_ind;
    [done..|].
  simpl. induction IH as [|r rs Hr _ IHrs]; [done|].
  simpl. by rewrite omap_app, Hr, IHrs.
Qed.

Lemma releaseCalls_closedTracer (c : option nat) (w : World) :
  omap closedTracer (releaseCalls c w) = option_list c.
Proof.
  destruct c as [p|]; [|done]. simpl.
  destruct (tracers w !! p) as [t|]; [|done].
  by rewrite closeCalls_closedTracer.
Qed.

(** X8: [Close] calls [Close] on the handle's closer and on nothing else,
    and it keeps no record of having run: [holder] is passed by value and
    its closer is never cleared, so a second [Close] of the same handle
    closes the closer a second time.  For the handle of a [configure] that
    installed a tracer, the closer is that tracer. *)
Theorem Close_closes_closer_every_time (h : holder) (w : World) :
  omap closedTracer (issued (Close h) w) = option_list (closer h)
  ∧ omap closedTracer (issued (Close h) (Close h w).2)
    = option_list (closer h)
  ∧ (∀ s o nz w0,
       (configure s o nz w0).1 = (Some h, None) →
       TracingEnabled o = true →
       tracer h = JaegerTracer (length (tracers w0))
       ∧ option_list (closer h) = [length (tracers w0)]).
Proof.
  rewrite !issued_Close, !releaseCalls_closedTracer.
  split; [done|]. split; [done|].
  intros s o nz w0 Hres Hen.
  by destruct (configure_enabled_success s o nz w0 h Hres Hen) as [-> _].
Qed.

(** A zipkin handle closed twice. *)
Lemma Close_closes_closer_every_time_witness :
  let o := mkOptions "http://zipkin:9411/api/v1/spans" "" false in
  let h := {| closer := Some 0; tracer := JaegerTracer 0 |} in
  let w := (configure "myapp" o nzOk initialWorld).2 in
  (configure "myapp" o nzOk initialWorld).1 = (Some h, None)
  ∧ TracingEnabled o = true
  ∧ omap closedTracer (issued (Close h) w) = [0]
  ∧ omap closedTracer (issued (Close h) (Close h w).2) = [0].
Proof.
  intros o h w.
  assert (Hres : (configure "myapp" o nzOk initialWorld).1 = (Some h, None))
    by reflexivity.
  assert (Hen : TracingEnabled o = true) by reflexivity.
  split; [exact Hres|]. split; [exact Hen|].
  destruct (Close_closes_closer_every_time h w) as (H1 & H2 & _).
  split; [exact H1 | exact H2].
Defined.

(** X9: for options that pass [Validate], one run of [configure] calls the
    zipkin constructor exactly once when a zipkin URL is given and never
    otherwise, and likewise the jaeger transport constructor for a jaeger
    URL; each call gets the URL from the options and the package's logger
    and timeout.  This holds whether or not the zipkin constructor
    succeeds. *)
Theorem configure_constructs_once (s : string) (o : Options)
    (nz : newZipkin) (w : World) :
  Validate o = None →
  omap newZipkinArgs (issued (configure s o nz) w)
  = (if nonempty (ZipkinURL o)
     then [(ZipkinURL o,
            [zipkin_HTTPLogger logger; zipkin_HTTPTimeout httpTimeout])]
     else [])
  ∧ omap httpTransportArgs (issued (configure s o nz) w)
    = (if nonempty (JaegerURL o)
       then [(JaegerURL o, [transport_HTTPTimeout httpTimeout])]
       else []).
Proof.
  intros Hv. destruct (zipkinFailure o nz) as [c|] eqn:Hf.
  - rewrite (issued_configure_zipkin_err _ _ _ _ _ Hv Hf). simpl.
    apply zipkinFailure_Some_iff in Hf as [Hz _].
    assert (Hj : nonempty (JaegerURL o) = false).
    { destruct (nonempty (JaegerURL o)) eqn:Hj; [|done].
      apply nonempty_true in Hj. apply Validate_None_iff in Hv.
      exfalso. by apply Hv. }
    apply nonempty_true in Hz. by rewrite Hz, Hj.
  - rewrite (issued_configure_ok _ _ _ _ Hv Hf).
    by apply constructor_args.
Qed.

(** A zipkin configuration whose constructor fails: still one call. *)
Lemma configure_constructs_once_witness :
  let o := mkOptions "http://zipkin:9411/api/v1/spans" "" true in
  Validate o = None
  ∧ omap newZipkinArgs (issued (configure "myapp" o nzFail) initialWorld)
    = [("http://zipkin:9411/api/v1/spans",
        [zipkin_HTTPLogger logger; zipkin_HTTPTimeout httpTimeout])]
  ∧ omap httpTransportArgs (issued (configure "myapp" o nzFail) initialWorld)
    = [].
Proof.
  intros o.
  assert (Hv : Validate o = None) by reflexivity.
  split; [exact Hv|].
  exact (configure_constructs_once "myapp" o nzFail initialWorld Hv).
Defined.

Lemma backendCalls_construction (o : Options) (nz : newZipkin) :
  forallb isConstruction (backendCalls o nz) = true.
Proof. options_cases o nz; reflexivity. Qed.

(** X10: [configure] only constructs.  No call it makes closes a tracer or a
    transport, reports a span or writes a log line; in particular the tracer
    it replaces in the global slot is not closed, it stays allocated with
    its reporter until its own handle is closed. *)
Theorem configure_only_constructs (s : string) (o : Options)
    (nz : newZipkin) (w : World) :
  forallb isConstruction (issued (configure s o nz) w) = true
  ∧ ∀ p t, tracers w !! p = Some t →
           tracers (configure s o nz w).2 !! p = Some t.
Proof.
  split.
  - destruct (Validate o) as [e|] eqn:Hv.
    { by rewrite (issued_configure_invalid _ _ _ _ _ Hv). }
    destruct (zipkinFailure o nz) as [c|] eqn:Hf.
    { by rewrite (issued_configure_zipkin_err _ _ _ _ _ Hv Hf). }
    rewrite (issued_configure_ok _ _ _ _ Hv Hf), forallb_app.
    rewrite backendCalls_construction.
    by destruct (reporterSet o nz) as [|r0 [|r1 rs]].
  - intros p t Hp.
    destruct (configure_world_cases s o nz w) as [[l ->]|(rep & l & ->)];
      simpl; [done|]. by apply lookup_app_l_Some.
Qed.

(** A tracer allocated before the call, and one allocated by it. *)
Lemma configure_only_constructs_witness :
  let o := mkOptions "" "" true in
  let w := (configure "first" o nzOk initialWorld).2 in
  let t := mkTracer "first" sampler (logReporter logger) tracerOpts in
  tracers w !! 0 = Some t
  ∧ tracers (configure "second" o nzOk w).2 !! 0 = Some t
  ∧ forallb isConstruction (issued (configure "second" o nzOk) w) = true.
Proof.
  intros o w t.
  assert (Hold : tracers w !! 0 = Some t) by reflexivity.
  split; [exact Hold|].
  destruct (configure_only_constructs "second" o nzOk w) as [Hc Hkeep].
  split; [exact (Hkeep 0 t Hold) | exact Hc].
Defined.

(** A tracer allocated at the start keeps its index through later calls. *)
Lemma runOps_append_only_witness :
  let o := mkOptions "" "" true in
  let w := (configure "first" o nzOk initialWorld).2 in
  let t := mkTracer "first" sampler (logReporter logger) tracerOpts in
  let ops := [opConfigure "second" o nzOk;
              opClose {| closer := Some 0; tracer := JaegerTracer 0 |}] in
  tracers w !! 0 = Some t
  ∧ tracers (runOps ops w) !! 0 = Some t.
Proof.
  intros o w t ops.
  assert (Hold : tracers w !! 0 = Some t) by reflexivity.
  split; [exact Hold|].
  exact (proj2 (proj2 (runOps_append_only ops w)) 0 t Hold).
Defined.

Lemma forRange_spanLogger_Report (l : spanLogger) (spans : list jaeger_Span)
    (w0 : World) :
  forRange (spanLogger_Report l) spans w0
  = (tt, addCalls (map logLine spans) w0).
Proof.
  rewrite (forRange_run _ (λ span, [logLine span]));
    [|apply Forall_forall; by intros span _ w1].
  by f_equal.
Qed.

(** X11: with span logging as the only backend, no transport is constructed
    and the reporter of the tracer [configure] installs is the package's own
    [spanLogger], used as it is.  For a sequence of spans its [Report]
    writes exactly one [glog.Infof] line per span, in the order of the
    spans, carrying the operation name and the string of the span; its
    [Close] does nothing, so this is the same in every state, before and
    after the handle is closed. *)
Theorem log_only_one_line_per_span (s : string) (o : Options)
    (nz : newZipkin) (w : World) (spans : list jaeger_Span) (w0 : World) :
  ZipkinURL o = "" →
  JaegerURL o = "" →
  LogTraceSpans o = true →
  issued (configure s o nz) w = []
  ∧ (∃ t, tracers (configure s o nz w).2 !! length (tracers w) = Some t
          ∧ tracer_reporter t = logReporter logger)
  ∧ issued (forRange (spanLogger_Report logger) spans) w0 = map logLine spans
  ∧ spanLogger_Close logger w0 = (tt, w0).
Proof.
  intros Hz Hj Hl.
  pose proof (Validate_no_zipkin _ Hz) as Hv.
  pose proof (zipkinFailure_no_url _ nz Hz) as Hf.
  assert (Hrs : reporterSet o nz = [logReporter logger]).
  { unfold reporterSet. apply nonempty_false in Hz, Hj.
    by rewrite Hz, Hj, Hl. }
  assert (Hne : reporterSet o nz ≠ []) by by rewrite Hrs.
  split; [|split; [|split]].
  - rewrite (issued_configure_ok _ _ _ _ Hv Hf), Hrs.
    unfold backendCalls. apply nonempty_false in Hz, Hj.
    by rewrite Hz, Hj.
  - rewrite (configure_installs _ _ _ _ Hv Hf Hne), Hrs.
    eexists. split; [apply installed_lookup|done].
  - eapply issued_addCalls, forRange_spanLogger_Report.
  - done.
Qed.

(** Two spans through the reporter of a log-only tracer: two log lines, in
    order. *)
Lemma log_only_one_line_per_span_witness :
  let o := mkOptions "" "" true in
  let spans := [mkSpan "GET /orders" "5f2c:1a:0:1";
                mkSpan "POST /pay" "5f2c:1b:1a:1"] in
  (ZipkinURL o = "" ∧ JaegerURL o = "" ∧ LogTraceSpans o = true)
  ∧ issued (forRange (spanLogger_Report logger) spans) initialWorld
    = [call_glog_Infof "Reporting span operation: %s span: %s"
         ["GET /orders"; "5f2c:1a:0:1"];
       call_glog_Infof "Reporting span operation: %s span: %s"
         ["POST /pay"; "5f2c:1b:1a:1"]].
Proof.
  intros o spans. split; [by repeat split|].
  exact (proj1 (proj2 (proj2
    (log_only_one_line_per_span "myapp" o nzOk initialWorld spans
       initialWorld eq_refl eq_refl eq_refl)))).
Defined.

(** ** The usage sample *)

Lemma setupTracing_enabled_ok (nz : newZipkin) (o : Options) (w : World) :
  Validate o = None →
  TracingEnabled o = true →
  zipkinFailure o nz = None →
  ∃ rep l,
    setupTracing nz o w
    = Returned (Close {| closer := Some (length (tracers w));
                         tracer := JaegerTracer (length (tracers w)) |}
                  (installed "myapp" rep l w)).2.
Proof.
  intros Hv Hen Hf.
  assert (Hne : reporterSet o nz ≠ []).
  { intros He. apply (reporterSet_nil_iff o nz Hf) in He. congruence. }
  unfold setupTracing, Configure. rewrite Hv, Hen.
  rewrite (configure_installs _ _ _ _ Hv Hf Hne). simpl. by eexists _, _.
Qed.

(** X12: when the usage sample returns, tracing is not on.  Either the
    options enable nothing and the world is as before, or the deferred
    [Close] has already run: the tracer the sample configured is allocated
    and closed, and the global slot holds the no-op tracer again. *)
Theorem setupTracing_returns_without_tracer (nz : newZipkin) (o : Options)
    (w w' : World) :
  setupTracing nz o w = Returned w' →
  (TracingEnabled o = false ∧ w' = w)
  ∨ (TracingEnabled o = true
     ∧ globalTracer w' = NoopTracer
     ∧ length (tracers w') = S (length (tracers w))
     ∧ call_Tracer_Close (length (tracers w)) ∈ calls w').
Proof.
  intros Hret.
  destruct (Validate o) as [e|] eqn:Hv.
  { unfold setupTracing in Hret. by rewrite Hv in Hret. }
  destruct (TracingEnabled o) eqn:Hen.
  2:{ left. unfold setupTracing in Hret. rewrite Hv, Hen in Hret.
      split; congruence. }
  right. split; [done|].
  destruct (zipkinFailure o nz) as [c|] eqn:Hf.
  { unfold setupTracing, Configure in Hret. rewrite Hv, Hen in Hret.
    by rewrite (configure_zipkin_err _ _ _ _ _ Hv Hf) in Hret. }
  destruct (setupTracing_enabled_ok nz o w Hv Hen Hf) as (rep & l & Hrun).
  rewrite Hrun in Hret. injection Hret as <-.
  rewrite Close_run. simpl. rewrite bool_decide_eq_true_2 by done. simpl.
  split; [done|]. split; [rewrite length_app; simpl; lia|].
  apply elem_of_app. right. apply list_elem_of_here.
Qed.

(** The sample with a zipkin URL and a constructor that works. *)
Lemma setupTracing_returns_without_tracer_witness :
  let o := mkOptions "http://zipkin:9411/api/v1/spans" "" false in
  ∃ w', setupTracing nzOk o initialWorld = Returned w'
        ∧ TracingEnabled o = true
        ∧ globalTracer w' = NoopTracer.
Proof.
  intros o. eexists. split; [reflexivity|].
  destruct (setupTracing_returns_without_tracer nzOk o initialWorld _ eq_refl)
    as [[Hoff _]|(Hen & Hslot & _)]; [discriminate Hoff|].
  split; [exact Hen | exact Hslot].
Defined.

(** X13: the usage sample exits through [log.Fatal] exactly when both URLs
    are given, with the validation message; the exit that would report a
    failed configuration is never reached, because the [Close] before it
    runs on a nil handle. *)
Theorem setupTracing_exit (nz : newZipkin) (o : Options) (w : World) :
  (ZipkinURL o ≠ "" ∧ JaegerURL o ≠ "" →
     setupTracing nz o w
     = Exited ("Invalid options for tracing: " +:+ Error configError))
  ∧ (∀ msg, setupTracing nz o w = Exited msg →
       (ZipkinURL o ≠ "" ∧ JaegerURL o ≠ "")
       ∧ msg = "Invalid options for tracing: " +:+ Error configError).
Proof.
  split.
  - intros [Hz Hj]. unfold setupTracing, Validate.
    apply nonempty_true in Hz, Hj. by rewrite Hz, Hj.
  - intros msg Hexit.
    destruct (Validate o) as [e|] eqn:Hv.
    + assert (Hboth : ZipkinURL o ≠ "" ∧ JaegerURL o ≠ "").
      { destruct (decide (ZipkinURL o ≠ "" ∧ JaegerURL o ≠ ""))
          as [Hboth|Hnot]; [done|].
        apply Validate_None_iff in Hnot. congruence. }
      split; [done|]. destruct Hboth as [Hz Hj].
      unfold setupTracing, Validate in Hexit.
      apply nonempty_true in Hz, Hj. rewrite Hz, Hj in Hexit. simpl in Hexit.
      by injection Hexit as <-.
    + exfalso. destruct (TracingEnabled o) eqn:Hen.
      2:{ unfold setupTracing in Hexit. by rewrite Hv, Hen in Hexit. }
      destruct (zipkinFailure o nz) as [c|] eqn:Hf.
      * unfold setupTracing, Configure in Hexit. rewrite Hv, Hen in Hexit.
        by rewrite (configure_zipkin_err _ _ _ _ _ Hv Hf) in Hexit.
      * destruct (setupTracing_enabled_ok nz o w Hv Hen Hf)
          as (rep & l & Hrun).
        by rewrite Hrun in Hexit.
Qed.

(** Both example URLs at once. *)
Lemma setupTracing_exit_witness :
  let o := mkOptions "http://zipkin:9411/api/v1/spans"
                     "http://jaeger:14268/api/traces?format=jaeger.thrift"
                     true in
  (ZipkinURL o ≠ "" ∧ JaegerURL o ≠ "")
  ∧ setupTracing nzOk o initialWorld
    = Exited "Invalid options for tracing: can't have Jaeger and Zipkin outputs active simultaneously".
Proof.
  intros o.
  assert (H : ZipkinURL o ≠ "" ∧ JaegerURL o ≠ "") by (split; discriminate).
  split; [exact H|].
  exact (proj1 (setupTracing_exit nzOk o initialWorld) H).
Defined.

(** X14: the usage sample panics exactly when validation passes and the
    zipkin constructor fails, that is with a zipkin URL, no jaeger URL and a
    constructor error; the panic is the nil dereference of the handle. *)
Theorem setupTracing_panics_iff (nz : newZipkin) (o : Options) (w : World) :
  (∃ msg, setupTracing nz o w = Panicked msg) ↔
  JaegerURL o = ""
  ∧ ZipkinURL o ≠ ""
  ∧ ∃ cause,
      nz (ZipkinURL o)
         [zipkin_HTTPLogger logger; zipkin_HTTPTimeout httpTimeout]
      = inr cause.
Proof.
  split.
  - intros [msg Hp].
    destruct (Validate o) as [e|] eqn:Hv.
    { unfold setupTracing in Hp. by rewrite Hv in Hp. }
    destruct (TracingEnabled o) eqn:Hen.
    2:{ unfold setupTracing in Hp. by rewrite Hv, Hen in Hp. }
    destruct (zipkinFailure o nz) as [c|] eqn:Hf.
    + apply zipkinFailure_Some_iff in Hf as [Hz Hnz].
      split; [|eauto].
      destruct (decide (JaegerURL o = "")) as [Hj|Hj]; [done|].
      apply Validate_None_iff in Hv. exfalso. by apply Hv.
    + destruct (setupTracing_enabled_ok nz o w Hv Hen Hf) as (rep & l & Hrun).
      by rewrite Hrun in Hp.
  - intros (Hj & Hz & cause & Hnz).
    assert (Hv : Validate o = None).
    { apply Validate_None_iff. by intros [_ ?]. }
    assert (Hf : zipkinFailure o nz = Some cause)
      by by apply zipkinFailure_Some_iff.
    assert (Hen : TracingEnabled o = true).
    { apply TracingEnabled_true_zipkin. by apply nonempty_true. }
    exists nilDereference. unfold setupTracing, Configure. rewrite Hv, Hen.
    by rewrite (configure_zipkin_err _ _ _ _ _ Hv Hf).
Qed.

(** ** Attaching the flags *)

Lemma AddFlag_fresh (name : string) (value : pflag_Value) (usage : string)
    (cmd : cobra_Command) :
  persistentFlags cmd !! name = None →
  FlagSet_AddFlag name (mkFlag "" value usage) cmd
  = ({| persistentFlags := <[name := mkFlag "" value usage]> (persistentFlags cmd);
        shorthands := shorthands cmd |}, None).
Proof. intros Hfree. unfold FlagSet_AddFlag. by rewrite Hfree. Qed.

Lemma AddFlag_taken (name : string) (flag : pflag_Flag) (cmd : cobra_Command) :
  is_Some (persistentFlags cmd !! name) →
  FlagSet_AddFlag name flag cmd = (cmd, Some (flagRedefined name)).
Proof. intros [f Hf]. unfold FlagSet_AddFlag. by rewrite Hf. Qed.

Lemma AddFlag_lookup_ne (name name' : string) (flag : pflag_Flag)
    (cmd : cobra_Command) :
  name ≠ name' →
  persistentFlags (FlagSet_AddFlag name flag cmd).1 !! name'
  = persistentFlags cmd !! name'.
Proof.
  intros Hne. unfold FlagSet_AddFlag.
  destruct (persistentFlags cmd !! name); [done|].
  repeat case_bool_decide; try destruct (shorthands cmd !! _);
    cbn; by rewrite lookup_insert_ne.
Qed.

Lemma AddFlag_lookup_eq (name : string) (flag : pflag_Flag)
    (cmd : cobra_Command) :
  is_Some (persistentFlags (FlagSet_AddFlag name flag cmd).1 !! name).
Proof.
  unfold FlagSet_AddFlag.
  destruct (persistentFlags cmd !! name) as [f|] eqn:Hf;
    [cbn; by rewrite Hf|].
  repeat case_bool_decide; try destruct (shorthands cmd !! _);
    cbn; by rewrite lookup_insert_eq.
Qed.

(** X15: on a command that defines none of the three tracing flag names,
    [AttachCobraFlags] runs without a panic and defines exactly those three
    persistent flags, without shorthand and with defaults empty, empty and
    false; every other flag and every shorthand of the command is as
    before. *)
Theorem AttachCobraFlags_defines (cmd : cobra_Command) :
  (∀ name, name ∈ tracingFlagNames → persistentFlags cmd !! name = None) →
  ∃ cmd',
    AttachCobraFlags cmd = (cmd', None)
    ∧ (flag_DefValue <$> persistentFlags cmd' !! "trace_zipkin_url"
       = Some (pflag_String ""))
    ∧ (flag_DefValue <$> persistentFlags cmd' !! "trace_jaeger_url"
       = Some (pflag_String ""))
    ∧ (flag_DefValue <$> persistentFlags cmd' !! "trace_log_spans"
       = Some (pflag_Bool false))
    ∧ (∀ name f, name ∈ tracingFlagNames →
         persistentFlags cmd' !! name = Some f → flag_Shorthand f = "")
    ∧ (∀ name, name ∉ tracingFlagNames →
         persistentFlags cmd' !! name = persistentFlags cmd !! name)
    ∧ shorthands cmd' = shorthands cmd.
Proof.
  intros Hfree.
  assert (Hz : persistentFlags cmd !! "trace_zipkin_url" = None)
    by (apply Hfree; set_solver).
  assert (Hj : persistentFlags cmd !! "trace_jaeger_url" = None)
    by (apply Hfree; set_solver).
  assert (Hl : persistentFlags cmd !! "trace_log_spans" = None)
    by (apply Hfree; set_solver).
  unfold AttachCobraFlags, PersistentFlags_StringP, PersistentFlags_BoolP.
  rewrite (AddFlag_fresh _ _ _ _ Hz). cbn [andThen].
  rewrite AddFlag_fresh
    by (cbn [persistentFlags]; by rewrite lookup_insert_ne).
  cbn [andThen persistentFlags shorthands].
  rewrite AddFlag_fresh
    by (cbn [persistentFlags]; by rewrite !lookup_insert_ne).
  eexists. split; [reflexivity|]. cbn [persistentFlags shorthands].
  split; [by simplify_map_eq|]. split; [by simplify_map_eq|].
  split; [by simplify_map_eq|]. split; [|split; [|done]].
  - intros name f Hin Hf.
    unfold tracingFlagNames in Hin.
    repeat (apply elem_of_cons in Hin as [->|Hin]; [by simplify_map_eq|]).
    by apply elem_of_nil in Hin.
  - intros name Hout. unfold tracingFlagNames in Hout.
    rewrite !lookup_insert_ne; [done|..]; intros <-; apply Hout; set_solver.
Qed.

(** A command with one flag of its own. *)
Lemma AttachCobraFlags_defines_witness :
  let verbose := mkFlag "v" (pflag_Bool false) "verbose output" in
  let cmd := {| persistentFlags := {[ "verbose" := verbose ]};
                shorthands := {[ "v" := "verbose" ]} |} in
  (∀ name, name ∈ tracingFlagNames → persistentFlags cmd !! name = None)
  ∧ (AttachCobraFlags cmd).2 = None
  ∧ persistentFlags (AttachCobraFlags cmd).1 !! "verbose" = Some verbose
  ∧ (flag_DefValue <$> persistentFlags (AttachCobraFlags cmd).1
                         !! "trace_log_spans")
    = Some (pflag_Bool false).
Proof.
  intros verbose cmd.
  assert (Hfree : ∀ name, name ∈ tracingFlagNames →
                          persistentFlags cmd !! name = None).
  { intros name Hin. unfold tracingFlagNames in Hin.
    repeat (apply elem_of_cons in Hin as [->|Hin]; [reflexivity|]).
    by apply elem_of_nil in Hin. }
  split; [exact Hfree|].
  destruct (AttachCobraFlags_defines cmd Hfree)
    as (cmd' & -> & _ & _ & Hlog & _ & Hother & _).
  split; [reflexivity|]. split; [|exact Hlog].
  cbn [fst]. rewrite Hother; [reflexivity|].
  unfold tracingFlagNames. intros Hin.
  repeat (apply elem_of_cons in Hin as [Hin|Hin]; [discriminate Hin|]).
  by apply elem_of_nil in Hin.
Defined.

Lemma AttachCobraFlags_run (cmd : cobra_Command) :
  AttachCobraFlags cmd =
    match persistentFlags cmd !! "trace_zipkin_url" with
    | Some _ => (cmd, Some (flagRedefined "trace_zipkin_url"))
    | None =>
        let cmd1 := (PersistentFlags_StringP "trace_zipkin_url" "" ""
                       "URL of Zipkin collector (example: 'http://zipkin:9411/api/v1/spans')."
                       cmd).1 in
        match persistentFlags cmd !! "trace_jaeger_url" with
        | Some _ => (cmd1, Some (flagRedefined "trace_jaeger_url"))
        | None =>
            let cmd2 := (PersistentFlags_StringP "trace_jaeger_url" "" ""
                           "URL of Jaeger HTTP collector (example: 'http://jaeger:14268/api/traces?format=jaeger.thrift')."
                           cmd1).1 in
            match persistentFlags cmd !! "trace_log_spans" with
            | Some _ => (cmd2, Some (flagRedefined "trace_log_spans"))
            | None =>
                PersistentFlags_BoolP "trace_log_spans" "" false
                  "Whether or not to log trace spans." cmd2
            end
        end
    end.
Proof.
  unfold AttachCobraFlags, PersistentFlags_StringP, PersistentFlags_BoolP.
  destruct (persistentFlags cmd !! "trace_zipkin_url") as [fz|] eqn:Hz.
  { by rewrite AddFlag_taken by by rewrite Hz. }
  rewrite (AddFlag_fresh _ _ _ _ Hz). cbn [andThen fst].
  destruct (persistentFlags cmd !! "trace_jaeger_url") as [fj|] eqn:Hj.
  { rewrite AddFlag_taken; [done|].
    cbn [persistentFlags]. by rewrite lookup_insert_ne, Hj. }
  rewrite (AddFlag_fresh "trace_jaeger_url")
    by (cbn [persistentFlags]; by rewrite lookup_insert_ne).
  cbn [andThen fst].
  destruct (persistentFlags cmd !! "trace_log_spans") as [fl|] eqn:Hl.
  { rewrite AddFlag_taken; [done|].
    cbn [persistentFlags]. by rewrite !lookup_insert_ne, Hl. }
  done.
Qed.

(** X16: [AttachCobraFlags] panics exactly when the command already defines
    one of the three tracing flag names.  It is therefore not idempotent: a
    second call on a command it has been applied to panics on the first
    name. *)
Theorem AttachCobraFlags_panics_iff (cmd : cobra_Command) :
  ((AttachCobraFlags cmd).2 ≠ None ↔
   ∃ name, name ∈ tracingFlagNames ∧ is_Some (persistentFlags cmd !! name))
  ∧ ((AttachCobraFlags cmd).2 = None →
       AttachCobraFlags (AttachCobraFlags cmd).1
       = ((AttachCobraFlags cmd).1, Some (flagRedefined "trace_zipkin_url"))).
Proof.
  split; [split|].
  - intros Hpanic. rewrite AttachCobraFlags_run in Hpanic.
    destruct (persistentFlags cmd !! "trace_zipkin_url") eqn:Hz.
    { exists "trace_zipkin_url". rewrite Hz. split; [set_solver|done]. }
    destruct (persistentFlags cmd !! "trace_jaeger_url") eqn:Hj.
    { exists "trace_jaeger_url". rewrite Hj. split; [set_solver|done]. }
    destruct (persistentFlags cmd !! "trace_log_spans") eqn:Hl.
    { exists "trace_log_spans". rewrite Hl. split; [set_solver|done]. }
    exfalso. apply Hpanic.
    unfold PersistentFlags_BoolP, PersistentFlags_StringP.
    rewrite AddFlag_fresh; [done|]. by rewrite !AddFlag_lookup_ne.
  - intros (name & Hin & Hdef). rewrite AttachCobraFlags_run.
    destruct (persistentFlags cmd !! "trace_zipkin_url") eqn:Hz; [done|].
    destruct (persistentFlags cmd !! "trace_jaeger_url") eqn:Hj; [done|].
    destruct (persistentFlags cmd !! "trace_log_spans") eqn:Hl; [done|].
    exfalso. unfold tracingFlagNames in Hin.
    repeat (apply elem_of_cons in Hin as [->|Hin];
            [destruct Hdef; congruence|]).
    by apply elem_of_nil in Hin.
  - intros Hok.
    assert (Hz' : is_Some (persistentFlags (AttachCobraFlags cmd).1
                             !! "trace_zipkin_url")).
    { rewrite AttachCobraFlags_run in Hok |- *.
      destruct (persistentFlags cmd !! "trace_zipkin_url") eqn:Hz; [done|].
      destruct (persistentFlags cmd !! "trace_jaeger_url") eqn:Hj; [done|].
      destruct (persistentFlags cmd !! "trace_log_spans") eqn:Hl; [done|].
      unfold PersistentFlags_BoolP, PersistentFlags_StringP.
      rewrite !AddFlag_lookup_ne by done. apply AddFlag_lookup_eq. }
    rewrite (AttachCobraFlags_run (AttachCobraFlags cmd).1).
    by destruct Hz' as [f ->].
Qed.

(** The empty command, attached twice. *)
Lemma AttachCobraFlags_panics_iff_witness :
  let cmd := {| persistentFlags := ∅; shorthands := ∅ |} in
  (AttachCobraFlags cmd).2 = None
  ∧ (AttachCobraFlags (AttachCobraFlags cmd).1).2
    = Some (flagRedefined "trace_zipkin_url").
Proof.
  intros cmd.
  assert (Hok : (AttachCobraFlags cmd).2 = None) by reflexivity.
  split; [exact Hok|].
  by rewrite (proj2 (AttachCobraFlags_panics_iff cmd) Hok).
Defined.

(** X17: [AttachCobraFlags] is not atomic.  The panic names the first of
    zipkin URL, jaeger URL, log spans that the command already defines, and
    the flags that come before it in that order have by then been added to
    the command and stay there. *)
Theorem AttachCobraFlags_not_atomic (cmd : cobra_Command) :
  (is_Some (persistentFlags cmd !! "trace_zipkin_url") →
     AttachCobraFlags cmd = (cmd, Some (flagRedefined "trace_zipkin_url")))
  ∧ (persistentFlags cmd !! "trace_zipkin_url" = None →
     is_Some (persistentFlags cmd !! "trace_jaeger_url") →
       (AttachCobraFlags cmd).2 = Some (flagRedefined "trace_jaeger_url")
       ∧ is_Some (persistentFlags (AttachCobraFlags cmd).1
                    !! "trace_zipkin_url"))
  ∧ (persistentFlags cmd !! "trace_zipkin_url" = None →
     persistentFlags cmd !! "trace_jaeger_url" = None →
     is_Some (persistentFlags cmd !! "trace_log_spans") →
       (AttachCobraFlags cmd).2 = Some (flagRedefined "trace_log_spans")
       ∧ is_Some (persistentFlags (AttachCobraFlags cmd).1
                    !! "trace_zipkin_url")
       ∧ is_Some (persistentFlags (AttachCobraFlags cmd).1
                    !! "trace_jaeger_url")).
Proof.
  rewrite AttachCobraFlags_run. split; [|split].
  - by intros [f ->].
  - intros -> [f ->]. cbn [fst snd]. split; [done|].
    apply AddFlag_lookup_eq.
  - intros Hz Hj [f Hl]. rewrite Hz, Hj, Hl. cbn [fst snd]. split; [done|].
    unfold PersistentFlags_StringP. split.
    + rewrite AddFlag_lookup_ne by done. apply AddFlag_lookup_eq.
    + apply AddFlag_lookup_eq.
Qed.

(** A command that already has its own [trace_log_spans] flag. *)
Lemma AttachCobraFlags_not_atomic_witness :
  let own := mkFlag "" (pflag_Bool true) "log spans" in
  let cmd := {| persistentFlags := {[ "trace_log_spans" := own ]};
                shorthands := ∅ |} in
  persistentFlags cmd !! "trace_zipkin_url" = None
  ∧ persistentFlags cmd !! "trace_jaeger_url" = None
  ∧ is_Some (persistentFlags cmd !! "trace_log_spans")
  ∧ (AttachCobraFlags cmd).2 = Some (flagRedefined "trace_log_spans")
  ∧ is_Some (persistentFlags (AttachCobraFlags cmd).1 !! "trace_zipkin_url").
Proof.
  intros own cmd.
  assert (Hz : persistentFlags cmd !! "trace_zipkin_url" = None)
    by reflexivity.
  assert (Hj : persistentFlags cmd !! "trace_jaeger_url" = None)
    by reflexivity.
  assert (Hl : is_Some (persistentFlags cmd !! "trace_log_spans"))
    by (by exists own).
  split; [exact Hz|]. split; [exact Hj|]. split; [exact Hl|].
  destruct (AttachCobraFlags_not_atomic cmd) as (_ & _ & Hlog).
  destruct (Hlog Hz Hj Hl) as (Hpanic & Hzip & _).
  split; [exact Hpanic | exact Hzip].
Defined.
